(** * Kumiko panel pipeline: a shallow embedding of [lib/page.py]

    The development follows the methods of class [Page] one by one.  A panel
    is the record of its four edges; the page's mutable [panels] list is a
    [list Panel] threaded through the passes, and a pass that mutates panel
    objects in place ([deoverlap_panels], [expand_panels]) addresses them by
    their position in that list.  Python exceptions are explicit results.

    [lib/panel.py] is not part of the sources at hand.  The geometric
    predicates of [Panel] that the passes call are modelled from the
    specification and marked as such; the neighbour search is kept abstract
    (a type class) and instantiated from the specification where a concrete
    page is evaluated. *)

From Stdlib Require Import ZArith QArith Lia String.
From stdpp Require Import base list.

Local Open Scope Z_scope.

(** ** Panels *)

(** The four edges of a panel: [x] left, [y] top, [r] right, [b] bottom. *)
Record Panel : Type := mkPanel { px : Z; py : Z; pr : Z; pb : Z }.

(** Modelled from the spec: [Panel.__eq__] and [Panel.__hash__] (lib/panel.py)
    are equality by value of the four edges, which is Leibniz equality on
    the record. *)
#[global] Instance Panel_eq_dec : EqDecision Panel.
Proof. solve_decision. Defined.

(** [Panel.w()] and [Panel.h()]. *)
Definition w (p : Panel) : Z := pr p - px p.
Definition h (p : Panel) : Z := pb p - py p.

(** Modelled from the spec: [Panel.from_xyrb] (lib/panel.py) builds the
    panel with the given four edges. *)
Definition from_xyrb (x y r b : Z) : Panel := mkPanel x y r b.

(** Modelled from the spec: the constructor [Panel(xywh = [x, y, w, h])]
    (lib/panel.py) sets [r = x + w] and [b = y + h]. *)
Definition from_xywh (x y w0 h0 : Z) : Panel := mkPanel x y (x + w0) (y + h0).

(** The edge names used by [getattr] and [setattr] in [expand_panels]. *)
Inductive Dir : Type := DX | DY | DR | DB.

#[global] Instance Dir_eq_dec : EqDecision Dir.
Proof. solve_decision. Defined.

Definition getattr (p : Panel) (d : Dir) : Z :=
  match d with DX => px p | DY => py p | DR => pr p | DB => pb p end.

Definition setattr (p : Panel) (d : Dir) (v : Z) : Panel :=
  match d with
  | DX => mkPanel v (py p) (pr p) (pb p)
  | DY => mkPanel (px p) v (pr p) (pb p)
  | DR => mkPanel (px p) (py p) v (pb p)
  | DB => mkPanel (px p) (py p) (pr p) v
  end.

(** ** Page configuration *)

(** What [Page.__init__] stores besides the panels: [img_size = [W, H]],
    [numbering] and [small_panel_ratio].  The ratio is a Python float in the
    source and an exact rational here. *)
Record PageCfg : Type := mkCfg {
  img_w : Z;
  img_h : Z;
  numbering : string;
  small_panel_ratio : Q
}.

(** [Page.DEFAULT_MIN_PANEL_SIZE_RATIO = 1 / 15]. *)
Definition DEFAULT_MIN_PANEL_SIZE_RATIO : Q := 1 # 15.

(** The shorter page dimension [S = min(W, H)] of the specification. *)
Definition short_side (cfg : PageCfg) : Z := Z.min (img_w cfg) (img_h cfg).

(** Modelled from the spec: [Panel.is_small] (lib/panel.py), "w < S * ratio
    or h < S * ratio". *)
Definition small_threshold (cfg : PageCfg) : Q :=
  (inject_Z (short_side cfg) * small_panel_ratio cfg)%Q.

Definition is_small (cfg : PageCfg) (p : Panel) : bool :=
  negb (Qle_bool (small_threshold cfg) (inject_Z (w p)))
  || negb (Qle_bool (small_threshold cfg) (inject_Z (h p))).

(** Modelled from the spec: [Panel.is_close] (lib/panel.py), "minimum
    bounding-box edge distance <= S/10 and the panels are roughly aligned on
    at least one axis (overlap projected on that axis > 0)". *)
Definition proj_overlap_x (p q : Panel) : Z := Z.min (pr p) (pr q) - Z.max (px p) (px q).
Definition proj_overlap_y (p q : Panel) : Z := Z.min (pb p) (pb q) - Z.max (py p) (py q).

Definition edge_distance (p q : Panel) : Z :=
  Z.max (Z.max 0 (- proj_overlap_x p q)) (Z.max 0 (- proj_overlap_y p q)).

Definition is_close (cfg : PageCfg) (p q : Panel) : bool :=
  (10 * edge_distance p q <=? short_side cfg)
  && ((0 <? proj_overlap_x p q) || (0 <? proj_overlap_y p q)).

(** Modelled from the spec: [Panel.contains] (lib/panel.py), "true iff other
    lies fully inside self's rectangle (edges inclusive)". *)
Definition contains (p q : Panel) : bool :=
  (px p <=? px q) && (py p <=? py q) && (pr q <=? pr p) && (pb q <=? pb p).

(** Modelled from the spec: [Panel.merge] (lib/panel.py), "smallest
    enclosing rectangle of both". *)
Definition merge (p q : Panel) : Panel :=
  mkPanel (Z.min (px p) (px q)) (Z.min (py p) (py q))
          (Z.max (pr p) (pr q)) (Z.max (pb p) (pb q)).

(** Modelled from the spec: [Panel.overlap_panel] (lib/panel.py), "the
    rectangle of intersection if non-empty area, else none". *)
Definition overlap_panel (p q : Panel) : option Panel :=
  let o := mkPanel (Z.max (px p) (px q)) (Z.max (py p) (py q))
                   (Z.min (pr p) (pr q)) (Z.min (pb p) (pb q)) in
  if (px o <? pr o) && (py o <? pb o) then Some o else None.

(** ** Python list primitives *)

(** [list.index(v)]: the first position holding a value equal to [v];
    [None] stands for [ValueError]. *)
Definition py_index (v : Panel) (l : list Panel) : option nat :=
  fst <$> list_find (λ q, q = v) l.

(** [list.remove(v)]: drop the first element equal to [v]; [None] stands
    for [ValueError]. *)
Fixpoint py_remove (v : Panel) (l : list Panel) : option (list Panel) :=
  match l with
  | [] => None
  | q :: l' => if decide (q = v) then Some l' else cons q <$> py_remove v l'
  end.

(** [list.insert(pos, v)]. *)
Definition py_insert (pos : nat) (v : Panel) (l : list Panel) : list Panel :=
  take pos l ++ v :: drop pos l.

(** [min(l)] on a non-empty list of integers (the lists it is applied to
    are never empty, see [actual_gutters]). *)
Definition py_min (l : list Z) : Z :=
  match l with
  | [] => 0
  | a :: l' => foldl Z.min a l'
  end.

(** [min(l, key = k)] and [max(l, key = k)]: the first element whose key is
    minimal (maximal); [None] on the empty list. *)
Definition py_min_by (k : Panel → Z) (l : list Panel) : option Panel :=
  match l with
  | [] => None
  | a :: l' => Some (foldl (λ m q, if k q <? k m then q else m) a l')
  end.

Definition py_max_by (k : Panel → Z) (l : list Panel) : option Panel :=
  match l with
  | [] => None
  | a :: l' => Some (foldl (λ m q, if k m <? k q then q else m) a l')
  end.

(** ** [Page.__init__]: the numbering argument *)

(** The exceptions the constructor raises: its own two, the [ValueError]
    of [list.remove] and [list.index], the [SystemExit] of [sys.exit] and
    the [TypeError] of a [for] over [None]. *)
Inductive PageError : Type :=
  | NotAnImageException
  | FatalError (msg : string)
  | ValueError
  | SystemExit (code : Z)
  | TypeError.

(** [str(numbering)] for an argument that is [None] or a string. *)
Definition str_of_numbering (n : option string) : string :=
  match n with None => "None" | Some s => s end.

(** [numbering or "ltr"]: [None] and the empty string are falsy. *)
Definition numbering_or_ltr (n : option string) : string :=
  match n with
  | None => "ltr"
  | Some s => if String.eqb s "" then "ltr" else s
  end.

(** [numbering in ['ltr', 'rtl']], on the ARGUMENT as line 48 has it. *)
Definition numbering_in_ltr_rtl (n : option string) : bool :=
  match n with
  | None => false
  | Some s => String.eqb s "ltr" || String.eqb s "rtl"
  end.

(** Lines 43-49 of [Page.__init__]: [img_ok] tells whether [cv.imread]
    gave a non-empty array; the result is the stored [self.numbering]. *)
Definition init_numbering (img_ok : bool) (n : option string)
  : PageError + string :=
  if negb img_ok then inl NotAnImageException
  else
    let self_numbering := numbering_or_ltr n in
    if negb (numbering_in_ltr_rtl n)
    then inl (FatalError ("Fatal error, unknown numbering: " ++ str_of_numbering n))
    else inr self_numbering.

(** [min_panel_size_ratio or Page.DEFAULT_MIN_PANEL_SIZE_RATIO]: [None] and
    zero are falsy. *)
Definition ratio_or_default (r : option Q) : Q :=
  match r with
  | None => DEFAULT_MIN_PANEL_SIZE_RATIO
  | Some q => if Qeq_bool q 0 then DEFAULT_MIN_PANEL_SIZE_RATIO else q
  end.

(** ** Python dicts *)

(** A dict iterates in insertion order and [group_small_panels] depends on
    that order, so a dict is the list of its entries, each key once.
    [dict_set] overwrites in place or appends a new entry. *)
Section Dict.
Context {K V : Type} `{EqDecision K}.

Fixpoint dict_get (d : list (K * V)) (k : K) : option V :=
  match d with
  | [] => None
  | (k', v) :: d' => if decide (k' = k) then Some v else dict_get d' k
  end.

Fixpoint dict_set (d : list (K * V)) (k : K) (v : V) : list (K * V) :=
  match d with
  | [] => [(k, v)]
  | (k', v') :: d' =>
      if decide (k' = k) then (k', v) :: d' else (k', v') :: dict_set d' k v
  end.
End Dict.

(** ** [Page.group_small_panels] *)

(** Lines 181-183: the sweep over [groups.items()] that relabels the group
    of [p2] with the id of [p1].  The entries are visited in insertion
    order, and [groups[p2]] and [groups[p1]] are read afresh at every
    entry, as the source does. *)
Definition relabel_entry (p1 p2 : Panel) (cur : list (Panel * nat)) (p : Panel)
  : list (Panel * nat) :=
  match dict_get cur p, dict_get cur p2, dict_get cur p1 with
  | Some id, Some id2, Some id1 =>
      if decide (id = id2) then dict_set cur p id1 else cur
  | _, _, _ => cur
  end.

Definition relabel (p1 p2 : Panel) (groups : list (Panel * nat))
  : list (Panel * nat) :=
  foldl (relabel_entry p1 p2) groups (fst <$> groups).

(** Lines 165-183: the body of the double loop for one pair; the state is
    [(groups, group_id)]. *)
Definition group_pair (cfg : PageCfg) (st : list (Panel * nat) * nat)
    (p1 p2 : Panel) : list (Panel * nat) * nat :=
  let '(groups, group_id) := st in
  if decide (p1 = p2) then st
  else if negb (is_close cfg p1 p2) then st
  else
    match dict_get groups p1, dict_get groups p2 with
    | None, None =>
        let group_id := S group_id in
        (dict_set (dict_set groups p1 group_id) p2 group_id, group_id)
    | Some g1, None => (dict_set groups p2 g1, group_id)
    | None, Some g2 => (dict_set groups p1 g2, group_id)
    | Some g1, Some g2 =>
        if decide (g1 ≠ g2) then (relabel p1 p2 groups, group_id) else st
    end.

(** Lines 163-164: [p1] runs over [small_panels], [p2] over the panels
    after it. *)
Fixpoint group_loop (cfg : PageCfg) (small_panels : list Panel)
    (st : list (Panel * nat) * nat) : list (Panel * nat) * nat :=
  match small_panels with
  | [] => st
  | p1 :: rest => group_loop cfg rest (foldl (λ s p2, group_pair cfg s p1 p2) st rest)
  end.

(** Lines 185-187: the members of every group id, ids in order of first
    appearance. *)
Definition grouped_of (groups : list (Panel * nat)) : list (nat * list Panel) :=
  foldl (λ grouped '(k, v), dict_set grouped v (default [] (dict_get grouped v) ++ [k]))
        [] groups.

(** Lines 190-200: append the bounding box of a group, then remove its
    members. *)
Definition replace_group (panels : list Panel) (grp : list Panel)
  : option (list Panel) :=
  mx ← py_min_by px grp;
  my ← py_min_by py grp;
  mr ← py_max_by pr grp;
  mb ← py_max_by pb grp;
  let big_panel := from_xyrb (px mx) (py my) (pr mr) (pb mb) in
  foldl (λ acc p, acc ≫= py_remove p) (Some (panels ++ [big_panel])) grp.

Definition group_small_panels (cfg : PageCfg) (panels : list Panel)
  : option (list Panel) :=
  let small_panels := filter (λ p, is_small cfg p) panels in
  let groups := fst (group_loop cfg small_panels ([], 0%nat)) in
  foldl (λ acc grp, acc ≫= λ ps, replace_group ps grp)
        (Some panels) (snd <$> grouped_of groups).

(** ** [Page.exclude_small_panels] *)

Definition exclude_small_panels (cfg : PageCfg) (panels : list Panel) : list Panel :=
  filter (λ p, ¬ is_small cfg p) panels.

(** ** [Page.deoverlap_panels] *)

(** Lines 240-255: the loop body for the panels at positions [i] and [j].
    The panels are objects mutated in place, so the body reads and writes
    the list at these positions. *)
Definition deoverlap_visit (panels : list Panel) (i j : nat) : list Panel :=
  match panels !! i, panels !! j with
  | Some p1, Some p2 =>
      if decide (p1 = p2) then panels
      else
        match overlap_panel p1 p2 with
        | None => panels
        | Some opanel =>
            if (w opanel <? h opanel) && (pr p1 =? pr opanel) then
              <[j := setattr p2 DX (pr opanel)]>
                (<[i := setattr p1 DR (px opanel)]> panels)
            else if (h opanel <? w opanel) && (pb p1 =? pb opanel) then
              <[j := setattr p2 DY (pb opanel)]>
                (<[i := setattr p1 DB (py opanel)]> panels)
            else panels
        end
  | _, _ => panels
  end.

Definition deoverlap_panels (panels : list Panel) : list Panel :=
  let n := length panels in
  foldl (λ st i, foldl (λ st' j, deoverlap_visit st' i j) st (seq 0 n))
        panels (seq 0 n).

(** ** [Page.merge_panels] *)

(** Lines 263-269: the inner loop; [p1] is rebound to [p1.merge(p2)] when
    it contains [p2], and the rebinding of [p2] is lost at the next
    iteration. *)
Definition merge_inner_step (st : Panel * list Panel) (p2 : Panel)
  : Panel * list Panel :=
  let '(p1, panels_to_remove) := st in
  if contains p1 p2 then (merge p1 p2, panels_to_remove ++ [p2])
  else if contains p2 p1 then (p1, panels_to_remove ++ [p1])
  else st.

Fixpoint merge_loop (panels : list Panel) (panels_to_remove : list Panel)
  : list Panel :=
  match panels with
  | [] => panels_to_remove
  | p1 :: rest =>
      merge_loop rest (snd (foldl merge_inner_step (p1, panels_to_remove) rest))
  end.

(** Lines 271-272: every value of [set(panels_to_remove)] is removed once. *)
Definition remove_each (vs : list Panel) (panels : list Panel)
  : option (list Panel) :=
  foldl (λ acc p, acc ≫= py_remove p) (Some panels) vs.

Definition merge_panels (panels : list Panel) : option (list Panel) :=
  remove_each (remove_dups (merge_loop panels [])) panels.

(** ** Neighbour search *)

(** [Panel.find_neighbour_panel(d)] (lib/panel.py) searches the panels of
    the page for the nearest neighbour of a panel on its [d] side.  It is an
    interface here: the search sees the current panel list of the page, the
    panel and the side.  [find_left_panel], [find_top_panel] and
    [find_right_panel] are the searches on the sides [x], [y] and [r]. *)
Class NeighbourSearch : Type :=
  find_neighbour_panel : list Panel → Panel → Dir → option Panel.

Section WithNeighbours.
Context `{NS : NeighbourSearch}.

Definition find_left_panel (panels : list Panel) (p : Panel) : option Panel :=
  find_neighbour_panel panels p DX.
Definition find_top_panel (panels : list Panel) (p : Panel) : option Panel :=
  find_neighbour_panel panels p DY.
Definition find_right_panel (panels : list Panel) (p : Panel) : option Panel :=
  find_neighbour_panel panels p DR.

(** *** [Page.actual_gutters] *)

Record Gutters : Type := mkGutters {
  gutter_x : Z; gutter_y : Z; gutter_r : Z; gutter_b : Z
}.

Definition gutters_get (g : Gutters) (d : Dir) : Z :=
  match d with
  | DX => gutter_x g | DY => gutter_y g | DR => gutter_r g | DB => gutter_b g
  end.

(** Lines 280-287: the gaps collected in panel order. *)
Definition gutters_x (panels : list Panel) : list Z :=
  omap (λ p, (λ left_panel, px p - pr left_panel) <$> find_left_panel panels p)
       panels.

Definition gutters_y (panels : list Panel) : list Z :=
  omap (λ p, (λ top_panel, py p - pb top_panel) <$> find_top_panel panels p)
       panels.

(** Lines 289-292. *)
Definition or_one (l : list Z) : list Z :=
  match l with [] => [1] | _ => l end.

Definition actual_gutters_with (func : list Z → Z) (panels : list Panel)
  : Gutters :=
  let gx := or_one (gutters_x panels) in
  let gy := or_one (gutters_y panels) in
  mkGutters (func gx) (func gy) (- func gx) (- func gy).

(** The default [func = min]. *)
Definition actual_gutters (panels : list Panel) : Gutters :=
  actual_gutters_with py_min panels.

(** *** [Page.get_infos] *)

(** Modelled from the spec: [Panel.to_xywh] (lib/panel.py) gives
    [[x, y, w, h]]. *)
Definition to_xywh (p : Panel) : list Z := [px p; py p; w p; h p].

(** The fields of the result that the pipeline decides; the file name,
    the license and the processing time are left out. *)
Record Infos : Type := mkInfos {
  info_size : list Z;
  info_numbering : string;
  info_gutters : list Z;
  info_panels : list (list Z)
}.

Definition get_infos (cfg : PageCfg) (panels : list Panel) : Infos :=
  let actual_gutters := actual_gutters panels in
  mkInfos [img_w cfg; img_h cfg] (numbering cfg)
          [gutter_x actual_gutters; gutter_y actual_gutters]
          (to_xywh <$> panels).

(** *** [Page.expand_panels] *)

(** The edge of the neighbour that faces side [d]. *)
Definition facing (d : Dir) : Dir :=
  match d with DX => DR | DR => DX | DY => DB | DB => DY end.

Definition is_xy (d : Dir) : bool :=
  match d with DX | DY => true | _ => false end.
Definition is_rb (d : Dir) : bool :=
  match d with DR | DB => true | _ => false end.

(** Lines 304-314: the candidate coordinate.  The frame is taken over
    the panels of the page, which hold [p], so the [None] of an empty
    list is never met; it leaves the initial [-1]. *)
Definition newcoord (panels : list Panel) (gutters : Gutters) (p : Panel)
    (d : Dir) : Z :=
  match find_neighbour_panel panels p d with
  | Some neighbour => getattr neighbour (facing d) + gutters_get gutters d
  | None =>
      let min_panel :=
        if is_xy d then py_min_by (λ q, getattr q d) panels
        else py_max_by (λ q, getattr q d) panels in
      match min_panel with
      | Some m => getattr m d
      | None => -1
      end
  end.

(** Lines 304-318 for the panel at position [i] and the side [d]. *)
Definition expand_visit (gutters : Gutters) (panels : list Panel) (i : nat)
    (d : Dir) : list Panel :=
  match panels !! i with
  | None => panels
  | Some p =>
      let nc := newcoord panels gutters p d in
      if decide (nc ≠ -1) then
        if (is_rb d && (getattr p d <? nc)) || (is_xy d && (nc <? getattr p d))
        then <[i := setattr p d nc]> panels
        else panels
      else panels
  end.

Definition expand_panel (gutters : Gutters) (panels : list Panel) (i : nat)
  : list Panel :=
  foldl (λ st d, expand_visit gutters st i d) panels [DX; DY; DR; DB].

Definition expand_panels (panels : list Panel) : list Panel :=
  let gutters := actual_gutters panels in
  foldl (expand_panel gutters) panels (seq 0 (length panels)).

(** *** [Page.fix_panels_numbering] *)

(** What one sweep of the [for] loop does. *)
Inductive Sweep : Type :=
  | NoChange
  | Moved (panels : list Panel)
  | SweepError.

(** Lines 330-337 for the panel [p] at position [i]: [SweepError] is the
    [ValueError] of [self.panels.index]. *)
Fixpoint try_neighbours (panels : list Panel) (i : nat) (p : Panel)
    (neighbours_before : list (option Panel)) : Sweep :=
  match neighbours_before with
  | [] => NoChange
  | None :: rest => try_neighbours panels i p rest
  | Some neighbour :: rest =>
      match py_index neighbour panels with
      | None => SweepError
      | Some neighbour_pos =>
          if (i <? neighbour_pos)%nat
          then Moved (py_insert neighbour_pos p (delete i panels))
          else try_neighbours panels i p rest
      end
  end.

(** Lines 328-329. *)
Definition neighbours_before (cfg : PageCfg) (panels : list Panel) (p : Panel)
  : list (option Panel) :=
  [ find_top_panel panels p;
    if String.eqb (numbering cfg) "rtl" then find_right_panel panels p
    else find_left_panel panels p ].

(** Lines 327-339: the sweep from position [i] on, [rest] being the
    panels from there. *)
Fixpoint sweep_from (cfg : PageCfg) (panels : list Panel) (i : nat)
    (rest : list Panel) : Sweep :=
  match rest with
  | [] => NoChange
  | p :: rest' =>
      match try_neighbours panels i p (neighbours_before cfg panels p) with
      | NoChange => sweep_from cfg panels (S i) rest'
      | res => res
      end
  end.

Definition sweep (cfg : PageCfg) (panels : list Panel) : Sweep :=
  sweep_from cfg panels 0 panels.

(** How a run of the [while] loop ends. *)
Inductive Outcome : Type :=
  | Finished (panels : list Panel)
  | Raised (e : PageError)
  | OutOfFuel.

(** Lines 324-339: [fuel] bounds the number of sweeps. *)
Fixpoint fix_panels_numbering (fuel : nat) (cfg : PageCfg)
    (panels : list Panel) : Outcome :=
  match fuel with
  | O => OutOfFuel
  | S fuel' =>
      match sweep cfg panels with
      | NoChange => Finished panels
      | Moved panels' => fix_panels_numbering fuel' cfg panels'
      | SweepError => Raised ValueError
      end
  end.

(** *** The pipeline of [Page.__init__] *)

(** Lines 103-106: the fallback panel and the numbering fix. *)
Definition fallback_full_page (cfg : PageCfg) (panels : list Panel) : list Panel :=
  if decide (length panels = 0%nat)
  then panels ++ [from_xywh 0 0 (img_w cfg) (img_h cfg)]
  else panels.

Definition finish_page (fuel : nat) (cfg : PageCfg) (panels : list Panel)
  : Outcome :=
  fix_panels_numbering fuel cfg (fallback_full_page cfg panels).

Section Pipeline.
(** [split_panels] works on the polygons of the panels through
    [Panel.split], and [list.sort] on [Panel.__lt__]; both are in
    lib/panel.py and are passes given from outside here. *)
Variable split_panels : list Panel → list Panel.
Variable sort_panels : list Panel → list Panel.

(** Lines 93-106, from the panels of [get_initial_panels] on. *)
Definition run_pipeline (fuel : nat) (cfg : PageCfg) (initial : list Panel)
  : Outcome :=
  match group_small_panels cfg initial with
  | None => Raised ValueError
  | Some grouped =>
      let split := split_panels grouped in
      let kept := exclude_small_panels cfg split in
      match merge_panels kept with
      | None => Raised ValueError
      | Some merged =>
          let deoverlapped := deoverlap_panels merged in
          let kept' := exclude_small_panels cfg deoverlapped in
          let sorted := sort_panels kept' in
          let expanded := expand_panels sorted in
          finish_page fuel cfg expanded
      end
  end.
End Pipeline.
End WithNeighbours.

(** ** A neighbour search from the specification *)

(** Modelled from the spec: [Panel.find_neighbour_panel] (lib/panel.py),
    "among panels whose projection on the perpendicular axis overlaps P's,
    pick the one whose relevant edge is closest to P on the d side and
    strictly outside P; break ties by largest projected overlap". *)
Definition perp_overlap (d : Dir) (p q : Panel) : Z :=
  match d with
  | DX | DR => proj_overlap_y p q
  | DY | DB => proj_overlap_x p q
  end.

(** The distance from the [d] edge of [p] to the facing edge of [q]. *)
Definition side_gap (d : Dir) (p q : Panel) : Z :=
  match d with
  | DX => px p - pr q
  | DY => py p - pb q
  | DR => px q - pr p
  | DB => py q - pb p
  end.

Definition is_neighbour_candidate (d : Dir) (p q : Panel) : bool :=
  (0 <? perp_overlap d p q) && (0 <? side_gap d p q).

Definition better_neighbour (d : Dir) (p q m : Panel) : bool :=
  (side_gap d p q <? side_gap d p m)
  || ((side_gap d p q =? side_gap d p m)
      && (perp_overlap d p m <? perp_overlap d p q)).

Definition spec_find_neighbour : NeighbourSearch :=
  λ panels p d,
    foldl (λ best q,
             if is_neighbour_candidate d p q then
               match best with
               | None => Some q
               | Some m => if better_neighbour d p q m then Some q else Some m
               end
             else best)
          None panels.

(** ** [Page.max_gutter] and the constructor as a whole *)

(** [max(l)] on a non-empty list of integers. *)
Definition py_max (l : list Z) : Z :=
  match l with
  | [] => 0
  | a :: l' => foldl Z.max a l'
  end.

(** Lines 61-67: what lies beside the image.  Without a [.license] file
    [self.license] stays [None]; a file that [json.load] reads gives its
    content; on a file that is not JSON the constructor prints a message
    and calls [sys.exit(1)]. *)
Inductive LicenseFile : Type :=
  | NoLicenseFile
  | LicenseJson (json : string)
  | LicenseNotJson.

Definition load_license (f : LicenseFile) : PageError + option string :=
  match f with
  | NoLicenseFile => inr None
  | LicenseJson json => inr (Some json)
  | LicenseNotJson => inl (SystemExit 1)
  end.

(** *** [Page.get_segments] *)

(** A line of the detector, its end points rounded to integers as lines
    124-127 do. *)
Record DLine : Type := mkDLine { dx0 : Z; dy0 : Z; dx1 : Z; dy1 : Z }.

(** Modelled from the spec: [Segment] (lib/segment.py), "ordered pair of
    endpoints a, b". *)
Record Segment : Type := mkSegment { seg_a : Z * Z; seg_b : Z * Z }.

(** Lines 129-132: [math.sqrt(a**2 + b**2) >= 100], which on integers [a]
    and [b] is [a**2 + b**2 >= 100**2]. *)
Definition long_enough (d : DLine) : bool :=
  let a := dx0 d - dx1 d in
  let b := dy0 d - dy1 d in
  100 * 100 <=? a * a + b * b.

(** Lines 117-136.  [dlines] is the [dlines[0]] of line 123: the lines
    that [lsd.detect] found, or [None] when it found none, and the [for]
    over [None] raises [TypeError]. *)
Definition get_segments (dlines : option (list DLine))
  : PageError + list Segment :=
  match dlines with
  | None => inl TypeError
  | Some lines =>
      inr ((λ d, mkSegment (dx0 d, dy0 d) (dx1 d, dy1 d))
             <$> filter (λ d, long_enough d) lines)
  end.

Section Constructor.
Context `{NS : NeighbourSearch}.

(** Line 297: the largest of the four values of [actual_gutters]. *)
Definition max_gutter (panels : list Panel) : Z :=
  let g := actual_gutters panels in
  py_max [gutter_x g; gutter_y g; gutter_r g; gutter_b g].

(** [Panel.split] (lib/panel.py) reads the segments of the page. *)
Variable split_panels : list Segment → list Panel → list Panel.
Variable sort_panels : list Panel → list Panel.

(** Lines 43-106 in their order: the checks of the arguments, the license
    file, the segments, then the pipeline on the configuration that the
    arguments give.  [img_ok] and [img_w], [img_h] stand for the outcome of
    [cv.imread], [initial] for the panels that [get_initial_panels] builds
    from the contours of [get_contours]. *)
Definition page_init (fuel : nat) (img_ok : bool) (img_w img_h : Z)
    (numbering : option string) (min_panel_size_ratio : option Q)
    (license_file : LicenseFile) (dlines : option (list DLine))
    (initial : list Panel) : Outcome :=
  match init_numbering img_ok numbering with
  | inl e => Raised e
  | inr self_numbering =>
      let cfg := mkCfg img_w img_h self_numbering
                       (ratio_or_default min_panel_size_ratio) in
      match load_license license_file with
      | inl e => Raised e
      | inr self_license =>
          match get_segments dlines with
          | inl e => Raised e
          | inr segments =>
              run_pipeline (split_panels segments) sort_panels fuel cfg initial
          end
      end
  end.
End Constructor.

(** ** Vocabulary of the properties *)

(** The edges of [p'] are those of [p] or further out. *)
Definition outward (p p' : Panel) : Prop :=
  px p' <= px p ∧ py p' <= py p ∧ pr p <= pr p' ∧ pb p <= pb p'.

(** The reported gutter in the words of the specification: 1 when no panel
    has a neighbour on that side, and else the least of the gaps between a
    panel and its neighbour, reached by some panel. *)
Definition min_gap_or_one (find : list Panel → Panel → option Panel)
    (gap : Panel → Panel → Z) (panels : list Panel) (m : Z) : Prop :=
  ((∀ p, p ∈ panels → find panels p = None) ∧ m = 1)
  ∨ ((∃ p n, p ∈ panels ∧ find panels p = Some n ∧ m = gap p n)
     ∧ ∀ p n, p ∈ panels → find panels p = Some n → m <= gap p n).

(** The searches of the page look among the panels of the page. *)
Definition neighbours_in_page (NS : NeighbourSearch) : Prop :=
  ∀ panels p d n, find_neighbour_panel panels p d = Some n → n ∈ panels.

(** What the relabelling sweep of [group_small_panels] makes of the
    entries of the dict, [g1] and [g2] being the groups of [p1] and [p2]. *)
Fixpoint relabelled (p2 : Panel) (g1 g2 : nat) (entries : list (Panel * nat))
  : list (Panel * nat) :=
  match entries with
  | [] => []
  | (p, id) :: rest =>
      if decide (p = p2) then (p, g1) :: rest
      else (p, if decide (id = g2) then g1 else id) :: relabelled p2 g1 g2 rest
  end.

(** What the inner loop appends for a fixed [p1]. *)
Definition removed_by (p1 : Panel) (rest : list Panel) : list Panel :=
  rest ≫= λ p2, if contains p1 p2 then [p2]
                else if contains p2 p1 then [p1] else [].

(** What the double loop of [merge_panels] collects in
    [panels_to_remove]. *)
Fixpoint to_remove (panels : list Panel) : list Panel :=
  match panels with
  | [] => []
  | p1 :: rest => removed_by p1 rest ++ to_remove rest
  end.

(** What the specification says of one pass of [merge_panels], from the
    input [panels] to the output [out]. *)
Definition containment_fixed_point (panels out : list Panel) : Prop :=
  out ⊆ panels
  ∧ (∀ p q, p ∈ out → q ∈ out → p ≠ q → contains p q = false)
  ∧ (∀ v, v ∈ panels → v ∉ out →
       ∃ q, q ∈ panels ∧ q ≠ v ∧ contains q v = true).

(** The pairs of positions in the order the double loop meets them. *)
Definition visits (n : nat) : list (nat * nat) :=
  seq 0 n ≫= λ i, (λ j, (i, j)) <$> seq 0 n.

(** The loop body of [deoverlap_panels] at a pair of positions. *)
Definition visit_pair (st : list Panel) (v : nat * nat) : list Panel :=
  deoverlap_visit st v.1 v.2.

(** Two panels that a visit leaves alone: the same rectangle, or no
    overlap. *)
Definition apart (p q : Panel) : Prop := p = q ∨ overlap_panel p q = None.

(** What the specification says of two panels [p] and [q] of overlap [o],
    [p'] and [q'] being what the pass leaves in their places: when [o] is
    wider than tall, the one that shares the bottom edge of [o] ends at
    [o.y] and the other one starts at [o.b]; otherwise the one that shares
    the right edge of [o] ends at [o.x] and the other one starts at
    [o.r]. *)
Definition overlap_adjusted (o p q p' q' : Panel) : Prop :=
  if decide (h o < w o) then
    (pb p = pb o ∧ pb p' = py o ∧ py q' = pb o)
    ∨ (pb q = pb o ∧ pb q' = py o ∧ py p' = pb o)
  else
    (pr p = pr o ∧ pr p' = px o ∧ px q' = pr o)
    ∨ (pr q = pr o ∧ pr q' = px o ∧ px p' = pr o).

(** The same of a whole pass from [panels] to [out], for every two
    positions that hold different rectangles with an overlap. *)
Definition adjusts_every_overlap (panels out : list Panel) : Prop :=
  ∀ i j p q o,
    panels !! i = Some p → panels !! j = Some q → p ≠ q →
    overlap_panel p q = Some o →
    ∃ p' q', out !! i = Some p' ∧ out !! j = Some q'
             ∧ overlap_adjusted o p q p' q'.

(** The panels at [i] and [j] overlap no third panel of the page. *)
Definition no_third_overlap (panels : list Panel) (i j : nat) : Prop :=
  ∀ a c p q, a = i ∨ a = j → c ≠ i → c ≠ j →
             panels !! a = Some p → panels !! c = Some q →
             overlap_panel p q = None.

(** The state of the pass between two visits, seen from the pair at [s]
    and [t]: the two positions hold [X] and [Y], and every other panel
    lies within what it was. *)
Definition pair_state (panels : list Panel) (s t : nat) (X Y : Panel)
    (st : list Panel) : Prop :=
  st !! s = Some X ∧ st !! t = Some Y
  ∧ ∀ c q', c ≠ s → c ≠ t → st !! c = Some q' →
            ∃ q, panels !! c = Some q ∧ outward q' q.

(** The pair at [s] and [t] is the only overlapping pair of the page. *)
Definition only_overlap (panels : list Panel) (s t : nat) : Prop :=
  ∀ a c p q, panels !! a = Some p → panels !! c = Some q →
             ¬ (a = s ∧ c = t) → ¬ (a = t ∧ c = s) → apart p q.

(** The panels read as the digits of a number in base [B], the head of the
    list the lowest digit, the digit of a panel its rank. *)
Fixpoint weight (B : nat) (rank : Panel → nat) (l : list Panel) : nat :=
  match l with
  | [] => 0
  | p :: l' => rank p + B * weight B rank l'
  end.

(** The side of the second before-neighbour. *)
Definition before_side (cfg : PageCfg) : Dir :=
  if String.eqb (numbering cfg) "rtl" then DR else DX.

(** A panel of positive width and height, both at least
    [min_panel_size_ratio * min(W, H)]. *)
Definition big_enough (cfg : PageCfg) (p : Panel) : Prop :=
  0 < w p ∧ 0 < h p
  ∧ (inject_Z (short_side cfg) * small_panel_ratio cfg <= inject_Z (w p))%Q
  ∧ (inject_Z (short_side cfg) * small_panel_ratio cfg <= inject_Z (h p))%Q.

Section NumberingVocabulary.
Context `{NS : NeighbourSearch}.

(** The before-neighbours of the panels of the page have a lower rank than
    the panel, in whatever order the page holds its panels: the neighbour
    relation has no cycle. *)
Definition before_ranked (cfg : PageCfg) (rank : Panel → nat)
    (panels : list Panel) : Prop :=
  ∀ l p n, l ≡ₚ panels → p ∈ l → Some n ∈ neighbours_before cfg l p →
           (rank n < rank p)%nat.

(** How a run of the loop may end. *)
Definition settled (cfg : PageCfg) (l : list Panel) (o : Outcome) : Prop :=
  o = Raised ValueError
  ∨ ∃ out, o = Finished out ∧ out ≡ₚ l ∧ sweep cfg out = NoChange.
End NumberingVocabulary.

(** ** Example pages *)

(** The 2 x 2 grid of the specification (scenario S2). *)
Definition grid_2x2 : list Panel :=
  [ mkPanel 20 20 380 580; mkPanel 420 20 780 580;
    mkPanel 20 620 380 1180; mkPanel 420 620 780 1180 ].

(** The same grid in the reverse of its reading order. *)
Definition grid_2x2_reversed : list Panel :=
  [ mkPanel 420 620 780 1180; mkPanel 20 620 380 1180;
    mkPanel 420 20 780 580; mkPanel 20 20 380 580 ].

(** Panels further down or further right rank higher. *)
Definition grid_rank (p : Panel) : nat := Z.to_nat ((px p + py p) / 100).

(** A neighbour assignment with a cycle: each of two panels is the top
    neighbour of the other. *)
Definition panel_A : Panel := mkPanel 0 0 10 10.
Definition panel_B : Panel := mkPanel 0 20 10 30.

Definition cyclic_search : NeighbourSearch :=
  λ panels p d,
    match d with
    | DY => if decide (p = panel_A) then Some panel_B
            else if decide (p = panel_B) then Some panel_A else None
    | _ => None
    end.

(** Three panels of which the first overlaps the two others: [strip_A]
    and [strip_B] in a wide strip, [strip_A] and [strip_C] in a tall one. *)
Definition strip_A : Panel := mkPanel 0 0 100 100.
Definition strip_B : Panel := mkPanel 0 90 100 200.
Definition strip_C : Panel := mkPanel 95 92 200 99.

(** Two panels that overlap in a square of 10 x 10. *)
Definition corner_A : Panel := mkPanel 0 0 100 100.
Definition corner_B : Panel := mkPanel 90 90 200 200.

(** Two pairs of overlapping panels side by side: a wide strip between the
    first two, a tall strip between the last two. *)
Definition two_pairs : list Panel :=
  [ mkPanel 0 0 100 60; mkPanel 0 50 100 120;
    mkPanel 200 0 260 100; mkPanel 250 0 320 100 ].

(** A page of 1000 x 1000 built with [min_panel_size_ratio = -1/2], and
    two panels of which the first sticks out of the second on both
    sides. *)
Definition negative_cfg : PageCfg :=
  mkCfg 1000 1000 "ltr" (ratio_or_default (Some (-1 # 2)%Q)).
Definition wide_panel : Panel := mkPanel 0 100 800 200.
Definition tall_panel : Panel := mkPanel 50 100 750 500.

(** Five small panels in a row on a page of 1500 x 1500: [row_a],
    [row_c], [row_d], [row_b], [row_e] from left to right, 10 apart. *)
Definition row_cfg : PageCfg := mkCfg 1500 1500 "ltr" (1 # 15).
Definition row_a : Panel := mkPanel 0 0 200 50.
Definition row_c : Panel := mkPanel 210 0 410 50.
Definition row_d : Panel := mkPanel 420 0 620 50.
Definition row_b : Panel := mkPanel 630 0 830 50.
Definition row_e : Panel := mkPanel 840 0 1040 50.

(** Four rectangles for which the search of the specification itself
    gives a cycle: [wheel_A] is above [wheel_B], [wheel_B] above [wheel_C],
    [wheel_C] left of the tall [wheel_D], and [wheel_D] left of
    [wheel_A]. *)
Definition wheel_cfg : PageCfg := mkCfg 30 30 "ltr" (1 # 15).
Definition wheel_A : Panel := mkPanel 15 0 20 10.
Definition wheel_B : Panel := mkPanel 5 11 25 20.
Definition wheel_C : Panel := mkPanel 0 21 10 30.
Definition wheel_D : Panel := mkPanel 11 5 14 25.

Definition wheel_orbit : list (list Panel) :=
  [ [wheel_A; wheel_B; wheel_C; wheel_D]; [wheel_B; wheel_C; wheel_D; wheel_A];
    [wheel_C; wheel_D; wheel_A; wheel_B]; [wheel_D; wheel_A; wheel_B; wheel_C] ].

(* ================================================================== *)
(** * Properties *)

(** ** The numbering argument of the constructor *)

Lemma init_numbering_ltr_rtl (s : string) :
  s = "ltr"%string ∨ s = "rtl"%string → init_numbering true (Some s) = inr s.
Proof. by intros [-> | ->]. Qed.

Lemma init_numbering_unknown (n : option string) :
  n ≠ Some "ltr"%string → n ≠ Some "rtl"%string →
  init_numbering true n
  = inl (FatalError ("Fatal error, unknown numbering: " ++ str_of_numbering n)).
Proof.
  intros Hl Hr. unfold init_numbering. simpl.
  destruct n as [s|]; simpl; [|done].
  destruct (String.eqb_spec s "ltr"); [by subst|].
  destruct (String.eqb_spec s "rtl"); [by subst|]. done.
Qed.

(** C1: with the numbering argument omitted ([None]) the constructor does
    not fall back to "ltr": [self.numbering] is given the default, but the
    membership test of line 48 reads the argument, and the constructor
    raises the fatal error. *)
Theorem init_numbering_omitted_raises :
  numbering_or_ltr None = "ltr"%string
  ∧ init_numbering true None
    = inl (FatalError "Fatal error, unknown numbering: None").
Proof. split; reflexivity. Qed.

(** ** [group_small_panels] *)

Section DictProps.
Context {K V : Type} `{EqDecision K}.

Lemma dict_get_app_r (d1 d2 : list (K * V)) (k : K) :
  k ∉ d1.*1 → dict_get (d1 ++ d2) k = dict_get d2 k.
Proof.
  induction d1 as [|[k' v'] d1 IH]; simpl; [done|].
  intros [? ?]%not_elem_of_cons. rewrite decide_False by done. auto.
Qed.

Lemma dict_get_head (d : list (K * V)) (k : K) (v : V) :
  dict_get ((k, v) :: d) k = Some v.
Proof. simpl. by rewrite decide_True. Qed.

Lemma dict_set_app_r (d1 d2 : list (K * V)) (k : K) (v : V) :
  k ∉ d1.*1 → dict_set (d1 ++ d2) k v = d1 ++ dict_set d2 k v.
Proof.
  induction d1 as [|[k' v'] d1 IH]; simpl; [done|].
  intros [? ?]%not_elem_of_cons. rewrite decide_False by done. by rewrite IH.
Qed.

Lemma dict_set_same (d : list (K * V)) (k : K) (v : V) :
  dict_get d k = Some v → dict_set d k v = d.
Proof.
  induction d as [|[k' v'] d IH]; simpl; [done|].
  case_decide; [by intros [= ->]|]. intros ?. by rewrite IH.
Qed.

Lemma dict_get_set_ne (d : list (K * V)) (k k' : K) (v : V) :
  k ≠ k' → dict_get (dict_set d k v) k' = dict_get d k'.
Proof.
  intros Hne. induction d as [|[k0 v0] d IH]; simpl.
  - by rewrite decide_False.
  - destruct (decide (k0 = k)) as [->|?]; simpl.
    + by rewrite !decide_False.
    + case_decide; [done|]. apply IH.
Qed.
End DictProps.

Lemma relabel_settled (p1 p2 : Panel) (g1 : nat) (ks : list Panel)
    (cur : list (Panel * nat)) :
  dict_get cur p1 = Some g1 → dict_get cur p2 = Some g1 →
  foldl (relabel_entry p1 p2) cur ks = cur.
Proof.
  intros H1 H2. induction ks as [|k ks IH]; simpl; [done|].
  assert (E : relabel_entry p1 p2 cur k = cur).
  { unfold relabel_entry. rewrite H1, H2.
    destruct (dict_get cur k) as [id|] eqn:Ek; [|done].
    case_decide; [|done]. subst. by apply dict_set_same. }
  by rewrite E.
Qed.

Lemma relabel_fold (p1 p2 : Panel) (g1 g2 : nat)
    (todo done : list (Panel * nat)) :
  NoDup (done ++ todo).*1 → g1 ≠ g2 →
  dict_get (done ++ todo) p1 = Some g1 →
  dict_get (done ++ todo) p2 = Some g2 →
  p2 ∉ done.*1 →
  foldl (relabel_entry p1 p2) (done ++ todo) todo.*1
  = done ++ relabelled p2 g1 g2 todo.
Proof.
  revert done. induction todo as [|[p id] todo IH]; intros done Hnd Hg H1 H2 Hp2.
  - simpl. done.
  - assert (Hp : p ∉ done.*1).
    { rewrite fmap_app in Hnd. apply NoDup_app in Hnd as (_ & Hd & _).
      intros Hin. apply (Hd p Hin). simpl. by left. }
    assert (Eget : dict_get (done ++ (p, id) :: todo) p = Some id).
    { rewrite dict_get_app_r by done. apply dict_get_head. }
    assert (Eset : ∀ v, dict_set (done ++ (p, id) :: todo) p v
                        = done ++ (p, v) :: todo).
    { intros v. rewrite dict_set_app_r by done. simpl.
      by rewrite decide_True. }
    cbn [fmap list_fmap foldl relabelled]. simpl.
    unfold relabel_entry at 2. rewrite Eget, H1, H2.
    destruct (decide (p = p2)) as [->|Hne].
    + assert (id = g2) as -> by congruence.
      rewrite decide_True by done. rewrite Eset.
      apply relabel_settled with g1.
      * rewrite <-(Eset g1). rewrite dict_get_set_ne; [done|]. congruence.
      * rewrite dict_get_app_r by done. apply dict_get_head.
    + assert (Hstep : (if decide (id = g2)
                       then dict_set (done ++ (p, id) :: todo) p g1
                       else done ++ (p, id) :: todo)
                      = (done ++ [(p, if decide (id = g2) then g1 else id)])
                        ++ todo).
      { case_decide; [rewrite Eset|]; by rewrite <-app_assoc. }
      rewrite Hstep. rewrite IH.
      * by rewrite <-app_assoc.
      * rewrite <-app_assoc. simpl. rewrite !fmap_app in *. done.
      * done.
      * rewrite <-Hstep. case_decide; [|done].
        destruct (decide (p = p1)) as [->|?]; [congruence|].
        by rewrite dict_get_set_ne.
      * rewrite <-Hstep. case_decide; [|done]. by rewrite dict_get_set_ne.
      * rewrite fmap_app. simpl. rewrite elem_of_app, list_elem_of_singleton.
        intros [?|?]; done.
Qed.

Lemma relabel_relabelled (p1 p2 : Panel) (g1 g2 : nat)
    (groups : list (Panel * nat)) :
  NoDup groups.*1 → g1 ≠ g2 →
  dict_get groups p1 = Some g1 → dict_get groups p2 = Some g2 →
  relabel p1 p2 groups = relabelled p2 g1 g2 groups.
Proof.
  intros. unfold relabel.
  apply (relabel_fold p1 p2 g1 g2 groups []); try done.
  apply not_elem_of_nil.
Qed.

(** The entries listed after [p2] keep their group. *)
Lemma relabelled_tail (p2 : Panel) (g1 g2 : nat) (pre post : list (Panel * nat)) :
  p2 ∉ pre.*1 →
  relabelled p2 g1 g2 (pre ++ (p2, g2) :: post)
  = (prod_map id (λ id, if decide (id = g2) then g1 else id) <$> pre)
    ++ (p2, g1) :: post.
Proof.
  induction pre as [|[p id] pre IH]; simpl.
  - intros _. by rewrite decide_True.
  - intros [? ?]%not_elem_of_cons. rewrite decide_False by done.
    by rewrite IH.
Qed.

(** What the sweep of lines 181-183 does to the dict: the entries before
    that of [p2] move from the group of [p2] to the group of [p1], and so
    does [p2]; the entries after [p2] are left as they are, those of the
    group of [p2] included. *)
Lemma relabel_stops_at_p2 (p1 p2 : Panel) (g1 g2 : nat)
    (pre post : list (Panel * nat)) :
  NoDup (pre ++ (p2, g2) :: post).*1 → g1 ≠ g2 →
  dict_get (pre ++ (p2, g2) :: post) p1 = Some g1 →
  relabel p1 p2 (pre ++ (p2, g2) :: post)
  = (prod_map id (λ id, if decide (id = g2) then g1 else id) <$> pre)
    ++ (p2, g1) :: post.
Proof.
  intros Hnd Hg H1.
  assert (Hp2 : p2 ∉ pre.*1).
  { rewrite fmap_app in Hnd. apply NoDup_app in Hnd as (_ & Hd & _).
    intros Hin. apply (Hd p2 Hin). simpl. by left. }
  rewrite (relabel_relabelled p1 p2 g1 g2); try done.
  - by apply relabelled_tail.
  - rewrite dict_get_app_r by done. apply dict_get_head.
Qed.


(** The five panels are small and each is close to the next one in the
    row, so that they are one component of the "close" graph. *)
Lemma row_is_one_component :
  Forall (λ p, is_small row_cfg p = true) [row_a; row_b; row_c; row_d; row_e]
  ∧ is_close row_cfg row_a row_c = true
  ∧ is_close row_cfg row_c row_d = true
  ∧ is_close row_cfg row_d row_b = true
  ∧ is_close row_cfg row_b row_e = true.
Proof. repeat split; repeat constructor. Qed.

(** The groups after the double loop: the relabelling sweep met the entry
    of [row_d] before that of [row_e] and left [row_e] in group 2. *)
Lemma row_groups :
  fst (group_loop row_cfg [row_a; row_b; row_c; row_d; row_e] ([], 0%nat))
  = [(row_a, 1%nat); (row_c, 1%nat); (row_b, 1%nat); (row_d, 1%nat);
     (row_e, 2%nat)].
Proof. reflexivity. Qed.

(** C2: on the panel list [row_a; row_b; row_c; row_d; row_e], whose
    panels are one component of the "close" graph, [group_small_panels]
    leaves two panels, the bounding box of four of them and [row_e]; on
    the same panels in the order of the row it leaves the one bounding box
    of the five. *)
Theorem group_small_panels_splits_component :
  group_small_panels row_cfg [row_a; row_b; row_c; row_d; row_e]
  = Some [mkPanel 0 0 830 50; row_e]
  ∧ group_small_panels row_cfg [row_a; row_c; row_d; row_b; row_e]
    = Some [mkPanel 0 0 1040 50].
Proof. split; reflexivity. Qed.

(** ** [merge_panels] *)

Lemma contains_spec (p q : Panel) :
  contains p q = true
  ↔ px p <= px q ∧ py p <= py q ∧ pr q <= pr p ∧ pb q <= pb p.
Proof.
  unfold contains. rewrite !andb_true_iff, !Z.leb_le. tauto.
Qed.

Lemma contains_antisym (p q : Panel) :
  contains p q = true → contains q p = true → p = q.
Proof.
  rewrite !contains_spec. destruct p, q; simpl. intros. f_equal; lia.
Qed.

(** The merge of a panel with one it contains is the outer panel. *)
Lemma merge_contained (p q : Panel) : contains p q = true → merge p q = p.
Proof.
  rewrite contains_spec. destruct p, q; unfold merge; simpl. intros.
  f_equal; lia.
Qed.

Lemma merge_inner_removed (p1 : Panel) (rest acc : list Panel) :
  foldl merge_inner_step (p1, acc) rest = (p1, acc ++ removed_by p1 rest).
Proof.
  revert acc. induction rest as [|p2 rest IH]; intros acc; simpl.
  - by rewrite app_nil_r.
  - unfold removed_by. simpl. destruct (contains p1 p2) eqn:E12.
    + rewrite merge_contained by done. rewrite IH. by rewrite <-app_assoc.
    + destruct (contains p2 p1); rewrite IH; [by rewrite <-app_assoc|done].
Qed.

Lemma merge_loop_to_remove (panels acc : list Panel) :
  merge_loop panels acc = acc ++ to_remove panels.
Proof.
  revert acc. induction panels as [|p1 rest IH]; intros acc; simpl.
  - by rewrite app_nil_r.
  - rewrite merge_inner_removed. simpl. rewrite IH. by rewrite <-app_assoc.
Qed.

Lemma elem_of_removed_by (v p1 : Panel) (rest : list Panel) :
  v ∈ removed_by p1 rest
  ↔ ∃ p2, p2 ∈ rest
      ∧ ((contains p1 p2 = true ∧ v = p2)
         ∨ (contains p1 p2 = false ∧ contains p2 p1 = true ∧ v = p1)).
Proof.
  unfold removed_by. rewrite list_elem_of_bind. split.
  - intros (p2 & Hv & Hp2). exists p2. split; [done|].
    destruct (contains p1 p2) eqn:E12.
    + apply list_elem_of_singleton in Hv. auto.
    + destruct (contains p2 p1) eqn:E21.
      * apply list_elem_of_singleton in Hv. auto.
      * by apply elem_of_nil in Hv.
  - intros (p2 & Hp2 & [[E ->]|(E1 & E2 & ->)]); exists p2; split; try done.
    + rewrite E. by apply list_elem_of_singleton.
    + rewrite E1, E2. by apply list_elem_of_singleton.
Qed.

(** Every panel marked for removal lies in another panel of the list. *)
Lemma to_remove_contained (panels : list Panel) (v : Panel) :
  NoDup panels → v ∈ to_remove panels →
  v ∈ panels ∧ ∃ q, q ∈ panels ∧ q ≠ v ∧ contains q v = true.
Proof.
  induction panels as [|p1 rest IH]; simpl; intros Hnd Hv.
  - by apply elem_of_nil in Hv.
  - apply NoDup_cons in Hnd as [Hp1 Hnd].
    apply elem_of_app in Hv as [Hv|Hv].
    + apply elem_of_removed_by in Hv
        as (p2 & Hp2 & [[E ->]|(E1 & E2 & ->)]).
      * split; [by right|]. exists p1. split; [by left|].
        split; [|done]. by intros ->.
      * split; [by left|]. exists p2. split; [by right|].
        split; [|done]. by intros ->.
    + destruct (IH Hnd Hv) as (Hin & q & Hq & Hne & Hc).
      split; [by right|]. exists q. split; [by right|]. done.
Qed.

(** Every panel that lies in a different panel of the list is marked. *)
Lemma contained_to_remove (panels : list Panel) (p q : Panel) :
  p ∈ panels → q ∈ panels → p ≠ q → contains p q = true →
  q ∈ to_remove panels.
Proof.
  induction panels as [|p1 rest IH]; simpl; intros Hp Hq Hne Hc.
  - by apply elem_of_nil in Hp.
  - apply elem_of_app.
    apply elem_of_cons in Hp as [->|Hp]; apply elem_of_cons in Hq as [->|Hq];
      try done.
    + left. apply elem_of_removed_by. exists q. auto.
    + left. apply elem_of_removed_by. exists p. split; [done|]. right.
      split; [|done].
      destruct (contains p1 p) eqn:E; [|done].
      exfalso. apply Hne. by apply contains_antisym.
    + right. auto.
Qed.

Lemma py_remove_NoDup (v : Panel) (l : list Panel) :
  v ∈ l → NoDup l → py_remove v l = Some (filter (λ q, q ≠ v) l).
Proof.
  induction l as [|q l IH]; intros Hv Hnd; [by apply elem_of_nil in Hv|].
  apply NoDup_cons in Hnd as [Hq Hnd]. simpl.
  destruct (decide (q = v)) as [->|Hne].
  - rewrite filter_cons_False by (intros ?; done). f_equal.
    symmetry. clear IH Hv Hnd. induction l as [|c l IH]; [done|].
    apply not_elem_of_cons in Hq as [Hc Hq].
    rewrite filter_cons_True by done. f_equal. auto.
  - apply elem_of_cons in Hv as [->|Hv]; [done|].
    rewrite IH by done. simpl. by rewrite filter_cons_True.
Qed.

Lemma remove_each_NoDup (vs l : list Panel) :
  NoDup l → (∀ v, v ∈ vs → v ∈ l) → NoDup vs →
  remove_each vs l = Some (filter (λ q, q ∉ vs) l).
Proof.
  unfold remove_each. revert l.
  induction vs as [|v vs IH]; intros l Hnd Hsub Hvs; simpl.
  - f_equal. symmetry. clear. induction l as [|c l IH]; [done|].
    rewrite filter_cons_True by apply not_elem_of_nil. by f_equal.
  - apply NoDup_cons in Hvs as [Hv Hvs].
    rewrite py_remove_NoDup by (auto; apply Hsub; by left).
    rewrite IH.
    + f_equal. rewrite list_filter_filter. apply list_filter_iff.
      intros q. rewrite not_elem_of_cons. tauto.
    + by apply NoDup_filter.
    + intros u Hu. apply list_elem_of_filter. split.
      * by intros ->.
      * apply Hsub. by right.
    + done.
Qed.

(** C7, amended: on a list whose panels are pairwise different rectangles,
    one pass of [merge_panels] returns a sublist of its input in which no
    panel contains another one, and every panel it dropped lies in another
    panel of the input. *)
Theorem merge_panels_fixed_point (panels : list Panel) :
  NoDup panels →
  ∃ out, merge_panels panels = Some out
         ∧ sublist out panels
         ∧ containment_fixed_point panels out.
Proof.
  intros Hnd. unfold merge_panels. rewrite merge_loop_to_remove. simpl.
  rewrite remove_each_NoDup; [|done| |apply NoDup_remove_dups].
  2:{ intros v Hv. rewrite elem_of_remove_dups in Hv.
      by destruct (to_remove_contained panels v Hnd Hv). }
  eexists. split; [done|]. split; [apply sublist_filter|].
  split; [|split].
  - apply list_subseteq_filter.
  - intros p q [_ Hp]%list_elem_of_filter [Hq Hq']%list_elem_of_filter Hne.
    destruct (contains p q) eqn:E; [|done].
    exfalso. apply Hq. rewrite elem_of_remove_dups.
    apply (contained_to_remove panels p q); done.
  - intros v Hv Hout.
    destruct (decide (v ∈ to_remove panels)) as [Hr|Hr].
    + by apply to_remove_contained.
    + exfalso. apply Hout, list_elem_of_filter. split; [|done].
      by rewrite elem_of_remove_dups.
Qed.

Lemma merge_panels_fixed_point_witness :
  ∃ out, merge_panels [mkPanel 0 0 100 100; mkPanel 10 10 50 50;
                       mkPanel 200 0 300 100] = Some out
         ∧ sublist out [mkPanel 0 0 100 100; mkPanel 10 10 50 50;
                        mkPanel 200 0 300 100]
         ∧ containment_fixed_point
             [mkPanel 0 0 100 100; mkPanel 10 10 50 50; mkPanel 200 0 300 100]
             out.
Proof.
  apply merge_panels_fixed_point. by compute_done.
Defined.

(** C7 as stated fails on a list that holds the same rectangle twice: the
    pass removes one of the two copies only, and the output still has a
    panel inside another one. *)
Lemma merge_panels_duplicate_survives :
  let a := mkPanel 0 0 100 100 in
  let v := mkPanel 10 10 50 50 in
  merge_panels [a; v; v] = Some [a; v]
  ∧ ¬ containment_fixed_point [a; v; v] [a; v].
Proof.
  split; [reflexivity|].
  intros (_ & Hno & _).
  specialize (Hno (mkPanel 0 0 100 100) (mkPanel 10 10 50 50)).
  discriminate Hno; [by left | right; by left | done].
Qed.

(** *** The order in which the set of panels to remove is walked *)

Lemma remove_each_Permutation (vs vs' l : list Panel) :
  NoDup l → NoDup vs → vs ≡ₚ vs' → (∀ v, v ∈ vs → v ∈ l) →
  remove_each vs l = remove_each vs' l.
Proof.
  intros Hl Hvs Hperm Hsub.
  rewrite !remove_each_NoDup; try done.
  - f_equal. apply list_filter_iff. intros q. by rewrite Hperm.
  - intros v Hv. apply Hsub. by rewrite Hperm.
  - by rewrite <-Hperm.
Qed.

(** ** Panels drawn within panels *)

Lemma outward_refl (p : Panel) : outward p p.
Proof. unfold outward. lia. Qed.

Lemma outward_trans (p q s : Panel) : outward p q → outward q s → outward p s.
Proof. unfold outward. lia. Qed.

Lemma Forall2_inward_insert (l : list Panel) (i : nat) (p p' : Panel) :
  l !! i = Some p → outward p' p →
  Forall2 (flip outward) l (<[i := p']> l).
Proof.
  revert i. induction l as [|q l IH]; intros [|i] Hi Ho; simplify_eq/=.
  - constructor; [done|]. clear. induction l; constructor; auto.
    apply outward_refl.
  - constructor; [apply outward_refl | by eapply IH].
Qed.

Lemma Forall2_inward_trans (l k m : list Panel) :
  Forall2 (flip outward) l k → Forall2 (flip outward) k m →
  Forall2 (flip outward) l m.
Proof.
  intros H. revert m. induction H; intros m Hm; inversion Hm; subst;
    constructor; [|by auto].
  unfold flip in *. by eapply outward_trans.
Qed.

Lemma Forall2_inward_refl (l : list Panel) : Forall2 (flip outward) l l.
Proof. induction l; constructor; auto. apply outward_refl. Qed.

(** ** [deoverlap_panels] *)

Lemma overlap_panel_Some (p q o : Panel) :
  overlap_panel p q = Some o
  ↔ o = mkPanel (Z.max (px p) (px q)) (Z.max (py p) (py q))
                (Z.min (pr p) (pr q)) (Z.min (pb p) (pb q))
    ∧ px o < pr o ∧ py o < pb o.
Proof.
  unfold overlap_panel. simpl.
  destruct (Z.ltb_spec (Z.max (px p) (px q)) (Z.min (pr p) (pr q)));
  destruct (Z.ltb_spec (Z.max (py p) (py q)) (Z.min (pb p) (pb q))); simpl;
    split; try (intros [= <-]; simpl; by auto);
    try (intros (-> & ? & ?); simpl in *; done || lia).
Qed.

Lemma overlap_panel_sym (p q : Panel) : overlap_panel p q = overlap_panel q p.
Proof.
  unfold overlap_panel; simpl.
  by rewrite (Z.max_comm (px p)), (Z.max_comm (py p)),
             (Z.min_comm (pr p)), (Z.min_comm (pb p)).
Qed.

(** One of two overlapping panels has the bottom edge of the overlap, and
    one has its right edge. *)
Lemma overlap_panel_edges (p q o : Panel) :
  overlap_panel p q = Some o →
  (pb p = pb o ∨ pb q = pb o) ∧ (pr p = pr o ∨ pr q = pr o).
Proof. intros (-> & _)%overlap_panel_Some. simpl. lia. Qed.

(** The visit of [(i, j)] when the condition on [p1] holds. *)
Lemma deoverlap_visit_wide (panels : list Panel) (i j : nat) (p1 p2 o : Panel) :
  panels !! i = Some p1 → panels !! j = Some p2 → p1 ≠ p2 →
  overlap_panel p1 p2 = Some o → h o < w o → pb p1 = pb o →
  deoverlap_visit panels i j
  = <[j := setattr p2 DY (pb o)]> (<[i := setattr p1 DB (py o)]> panels).
Proof.
  intros Hi Hj Hne Ho Hw Hb. unfold deoverlap_visit.
  rewrite Hi, Hj, decide_False, Ho by done.
  destruct (Z.ltb_spec (w o) (h o)); [lia|]. simpl.
  destruct (Z.ltb_spec (h o) (w o)); [|lia].
  destruct (Z.eqb_spec (pb p1) (pb o)); done.
Qed.

Lemma deoverlap_visit_tall (panels : list Panel) (i j : nat) (p1 p2 o : Panel) :
  panels !! i = Some p1 → panels !! j = Some p2 → p1 ≠ p2 →
  overlap_panel p1 p2 = Some o → w o < h o → pr p1 = pr o →
  deoverlap_visit panels i j
  = <[j := setattr p2 DX (pr o)]> (<[i := setattr p1 DR (px o)]> panels).
Proof.
  intros Hi Hj Hne Ho Hw Hr. unfold deoverlap_visit.
  rewrite Hi, Hj, decide_False, Ho by done.
  destruct (Z.ltb_spec (w o) (h o)); [|lia].
  destruct (Z.eqb_spec (pr p1) (pr o)); done.
Qed.

(** The visit of [(i, j)] when [p1] has not the edge of the overlap. *)
Lemma deoverlap_visit_skip_wide (panels : list Panel) (i j : nat)
    (p1 p2 o : Panel) :
  panels !! i = Some p1 → panels !! j = Some p2 →
  overlap_panel p1 p2 = Some o → h o < w o → pb p1 ≠ pb o →
  deoverlap_visit panels i j = panels.
Proof.
  intros Hi Hj Ho Hw Hb. unfold deoverlap_visit. rewrite Hi, Hj.
  case_decide; [done|]. rewrite Ho.
  destruct (Z.ltb_spec (w o) (h o)); [lia|]. simpl.
  destruct (Z.eqb_spec (pb p1) (pb o)); [done|]. by rewrite andb_false_r.
Qed.

Lemma deoverlap_visit_skip_tall (panels : list Panel) (i j : nat)
    (p1 p2 o : Panel) :
  panels !! i = Some p1 → panels !! j = Some p2 →
  overlap_panel p1 p2 = Some o → w o < h o → pr p1 ≠ pr o →
  deoverlap_visit panels i j = panels.
Proof.
  intros Hi Hj Ho Hw Hr. unfold deoverlap_visit. rewrite Hi, Hj.
  case_decide; [done|]. rewrite Ho.
  destruct (Z.eqb_spec (pr p1) (pr o)); [done|]. rewrite andb_false_r.
  destruct (Z.ltb_spec (h o) (w o)); [lia|]. done.
Qed.

(** One visit of the loop.  The loop meets two panels of different
    rectangles in both orders, [(s, t)] and [(t, s)].  When their overlap
    [O] is not empty and wider than tall, the visit that has at [s] the
    panel sharing the bottom edge of [O] sets the [b] of that panel to [O.y]
    and the [y] of the other to [O.b]; when [O] is taller than wide, the
    visit that has at [s] the panel sharing the right edge of [O] sets the
    [r] of that panel to [O.x] and the [x] of the other to [O.r].  A visit
    in the other order whose first panel does not share that edge changes
    nothing. *)
Lemma deoverlap_visit_adjusts (panels : list Panel) (i j : nat)
    (p1 p2 o : Panel) :
  panels !! i = Some p1 → panels !! j = Some p2 → p1 ≠ p2 →
  overlap_panel p1 p2 = Some o →
  (h o < w o →
     ∃ s t ps pt,
       (s = i ∧ t = j ∨ s = j ∧ t = i)
       ∧ panels !! s = Some ps ∧ panels !! t = Some pt
       ∧ pb ps = pb o ∧ py o <= pb ps ∧ py pt <= pb o
       ∧ deoverlap_visit panels s t
         = <[t := setattr pt DY (pb o)]> (<[s := setattr ps DB (py o)]> panels)
       ∧ (pb pt ≠ pb o → deoverlap_visit panels t s = panels))
  ∧ (w o < h o →
     ∃ s t ps pt,
       (s = i ∧ t = j ∨ s = j ∧ t = i)
       ∧ panels !! s = Some ps ∧ panels !! t = Some pt
       ∧ pr ps = pr o ∧ px o <= pr ps ∧ px pt <= pr o
       ∧ deoverlap_visit panels s t
         = <[t := setattr pt DX (pr o)]> (<[s := setattr ps DR (px o)]> panels)
       ∧ (pr pt ≠ pr o → deoverlap_visit panels t s = panels)).
Proof.
  intros Hi Hj Hne Ho.
  pose proof (overlap_panel_edges _ _ _ Ho) as [Hb Hr].
  pose proof (proj1 (overlap_panel_Some _ _ _) Ho) as (Heq & Hx & Hy).
  assert (Ho' : overlap_panel p2 p1 = Some o) by by rewrite overlap_panel_sym.
  split; intros Hw.
  - destruct (decide (pb p1 = pb o)) as [E|E].
    + exists i, j, p1, p2. repeat split; auto.
      * subst o; simpl in *; lia.
      * subst o; simpl in *; lia.
      * by eapply deoverlap_visit_wide.
      * intros. by eapply deoverlap_visit_skip_wide.
    + destruct Hb as [?|Hb]; [done|].
      exists j, i, p2, p1. repeat split; auto.
      * subst o; simpl in *; lia.
      * subst o; simpl in *; lia.
      * by eapply deoverlap_visit_wide.
      * intros. by eapply deoverlap_visit_skip_wide.
  - destruct (decide (pr p1 = pr o)) as [E|E].
    + exists i, j, p1, p2. repeat split; auto.
      * subst o; simpl in *; lia.
      * subst o; simpl in *; lia.
      * by eapply deoverlap_visit_tall.
      * intros. by eapply deoverlap_visit_skip_tall.
    + destruct Hr as [?|Hr]; [done|].
      exists j, i, p2, p1. repeat split; auto.
      * subst o; simpl in *; lia.
      * subst o; simpl in *; lia.
      * by eapply deoverlap_visit_tall.
      * intros. by eapply deoverlap_visit_skip_tall.
Qed.

Lemma overlap_panel_None (p q : Panel) :
  overlap_panel p q = None
  ↔ Z.min (pr p) (pr q) <= Z.max (px p) (px q)
    ∨ Z.min (pb p) (pb q) <= Z.max (py p) (py q).
Proof.
  unfold overlap_panel. simpl.
  destruct (Z.ltb_spec (Z.max (px p) (px q)) (Z.min (pr p) (pr q)));
  destruct (Z.ltb_spec (Z.max (py p) (py q)) (Z.min (pb p) (pb q))); simpl;
    split; intros; try done; lia.
Qed.

(** A visit changes nothing when the two panels are the same rectangle
    (which covers [i = j]) or do not overlap. *)
Lemma deoverlap_visit_quiet (panels : list Panel) (i j : nat) (p1 p2 : Panel) :
  panels !! i = Some p1 → panels !! j = Some p2 →
  p1 = p2 ∨ overlap_panel p1 p2 = None →
  deoverlap_visit panels i j = panels.
Proof.
  intros Hi Hj Hq. unfold deoverlap_visit. rewrite Hi, Hj.
  case_decide; [done|]. destruct Hq as [? | ->]; done.
Qed.

Lemma deoverlap_visit_diag (panels : list Panel) (i : nat) :
  deoverlap_visit panels i i = panels.
Proof.
  unfold deoverlap_visit. destruct (panels !! i); [|done].
  by rewrite decide_True.
Qed.

(** A square overlap is left as it is. *)
Lemma deoverlap_visit_square (panels : list Panel) (i j : nat)
    (p1 p2 o : Panel) :
  panels !! i = Some p1 → panels !! j = Some p2 →
  overlap_panel p1 p2 = Some o → w o = h o →
  deoverlap_visit panels i j = panels.
Proof.
  intros Hi Hj Ho Hw. unfold deoverlap_visit. rewrite Hi, Hj.
  case_decide; [done|]. rewrite Ho.
  destruct (Z.ltb_spec (w o) (h o)); [lia|].
  destruct (Z.ltb_spec (h o) (w o)); [lia|]. done.
Qed.

(** *** The pass on a page with one overlapping pair *)

Lemma foldl_visits (rows cols : list nat) (st : list Panel) :
  foldl (λ st i, foldl (λ st' j, deoverlap_visit st' i j) st cols) st rows
  = foldl visit_pair st (rows ≫= λ i, (λ j, (i, j)) <$> cols).
Proof.
  revert st. induction rows as [|i rows IH]; intros st; simpl; [done|].
  rewrite foldl_app, <-IH. f_equal.
  clear. revert st. induction cols as [|j cols IH]; intros st; simpl; [done|].
  by rewrite IH.
Qed.

Lemma deoverlap_panels_visits (panels : list Panel) :
  deoverlap_panels panels = foldl visit_pair panels (visits (length panels)).
Proof. apply foldl_visits. Qed.

Lemma visits_split (n s t : nat) :
  (s < n)%nat → (t < n)%nat →
  ∃ pre post,
    visits n = pre ++ (s, t) :: post
    ∧ ∀ a c, (a, c) ∈ pre → (a < s)%nat ∨ (a = s ∧ (c < t)%nat).
Proof.
  intros Hs Ht. unfold visits.
  assert (Hseq : ∀ k, (k < n)%nat →
            seq 0 n = seq 0 k ++ k :: seq (S k) (n - S k)).
  { intros k Hk. replace n with (k + S (n - S k))%nat at 1 by lia.
    by rewrite seq_app. }
  assert (G : ∀ rows cols,
            rows = seq 0 s ++ s :: seq (S s) (n - S s) →
            cols = seq 0 t ++ t :: seq (S t) (n - S t) →
            ∃ pre post,
              (rows ≫= λ i, (λ j, (i, j)) <$> cols) = pre ++ (s, t) :: post
              ∧ ∀ a c, (a, c) ∈ pre → (a < s)%nat ∨ (a = s ∧ (c < t)%nat)).
  { intros rows cols -> Hcols. rewrite bind_app, bind_cons.
    assert (E : (λ j, (s, j)) <$> cols
                = ((λ j, (s, j)) <$> seq 0 t)
                  ++ (s, t) :: ((λ j, (s, j)) <$> seq (S t) (n - S t)))
      by (by rewrite Hcols, fmap_app, fmap_cons).
    rewrite E.
    exists ((seq 0 s ≫= λ i, (λ j, (i, j)) <$> cols)
            ++ ((λ j, (s, j)) <$> seq 0 t)),
           (((λ j, (s, j)) <$> seq (S t) (n - S t))
            ++ (seq (S s) (n - S s) ≫= λ i, (λ j, (i, j)) <$> cols)).
    split.
    - by rewrite <-!app_assoc.
    - intros a c [Hin|Hin]%elem_of_app.
      + apply list_elem_of_bind in Hin as (i & Hin & Hi).
        apply list_elem_of_fmap in Hin as (j & [= -> ->] & _).
        apply elem_of_seq in Hi. left. lia.
      + apply list_elem_of_fmap in Hin as (j & [= -> ->] & Hj).
        apply elem_of_seq in Hj. right. lia. }
  apply G; by apply Hseq.
Qed.

Lemma apart_sym (p q : Panel) : apart p q → apart q p.
Proof. intros [->|H]; [by left|right]. by rewrite overlap_panel_sym. Qed.

Lemma deoverlap_visit_apart (panels : list Panel) (i j : nat) :
  (∀ p q, panels !! i = Some p → panels !! j = Some q → apart p q) →
  deoverlap_visit panels i j = panels.
Proof.
  intros H.
  destruct (panels !! i) as [p|] eqn:Hi;
    [|by unfold deoverlap_visit; rewrite Hi].
  destruct (panels !! j) as [q|] eqn:Hj;
    [|by unfold deoverlap_visit; rewrite Hi, Hj].
  apply (deoverlap_visit_quiet panels i j p q); [done|done|].
  exact (H p q eq_refl eq_refl).
Qed.

(** A panel drawn inside one that does not overlap [q] does not overlap
    [q] either. *)
Lemma overlap_panel_None_inside (p p' q : Panel) :
  outward p' p → overlap_panel p q = None → overlap_panel p' q = None.
Proof.
  unfold outward. rewrite !overlap_panel_None. lia.
Qed.

Lemma deoverlap_panels_fire (panels : list Panel) (s t : nat)
    (p_s p_t p_s' p_t' o : Panel) :
  panels !! s = Some p_s → panels !! t = Some p_t →
  p_s ≠ p_t → overlap_panel p_s p_t = Some o →
  only_overlap panels s t →
  outward p_s' p_s → outward p_t' p_t → overlap_panel p_s' p_t' = None →
  deoverlap_visit panels s t = <[t := p_t']> (<[s := p_s']> panels) →
  ((s < t)%nat ∨ deoverlap_visit panels t s = panels) →
  deoverlap_panels panels = <[t := p_t']> (<[s := p_s']> panels).
Proof.
  intros Hs Ht Hne Ho Honly Hin_s Hin_t Hnone Hfire Horder.
  assert (Hst : s ≠ t) by (intros ->; simplify_eq).
  pose proof (lookup_lt_Some _ _ _ Hs) as Hls.
  pose proof (lookup_lt_Some _ _ _ Ht) as Hlt.
  set (panels' := <[t := p_t']> (<[s := p_s']> panels)) in *.
  assert (Hlook : ∀ a, panels' !! a
            = if decide (a = t) then Some p_t'
              else if decide (a = s) then Some p_s' else panels !! a).
  { intros a. unfold panels'. repeat case_decide; subst.
    - rewrite list_lookup_insert_eq; [done|]. by rewrite length_insert.
    - rewrite list_lookup_insert_ne by done.
      by rewrite list_lookup_insert_eq.
    - by rewrite !list_lookup_insert_ne. }
  (* no other panel is a copy of one of the two *)
  assert (Hother_s : ∀ c q, panels !! c = Some q → c ≠ s → c ≠ t →
                            overlap_panel p_s q = None
                            ∧ overlap_panel p_t q = None).
  { intros c q Hc Hcs Hct.
    destruct (Honly s c p_s q Hs Hc) as [<-|H1]; [lia|lia| |].
    - destruct (Honly c t p_s p_t Hc Ht) as [?|H2]; [lia|lia|done|].
      by rewrite Ho in H2.
    - split; [done|].
      destruct (Honly t c p_t q Ht Hc) as [<-|H2]; [lia|lia| |done].
      destruct (Honly s c p_s p_t Hs Hc) as [?|H3]; [lia|lia|done|].
      by rewrite Ho in H3. }
  assert (Hquiet' : ∀ a c, deoverlap_visit panels' a c = panels').
  { intros a c. apply deoverlap_visit_apart. intros p q.
    rewrite !Hlook.
    destruct (decide (a = c)) as [->|Hac]; [intros; left; congruence|].
    destruct (decide (a = t)) as [->|Hat].
    - intros [= <-]. rewrite decide_False by done.
      destruct (decide (c = s)) as [->|Hcs].
      + intros [= <-]. right. by rewrite overlap_panel_sym.
      + intros Hq. right. apply (overlap_panel_None_inside p_t); [done|].
        exact (proj2 (Hother_s c q Hq Hcs (not_eq_sym Hac))).
    - destruct (decide (a = s)) as [->|Has].
      + intros [= <-]. destruct (decide (c = t)) as [->|Hct].
        * intros [= <-]. by right.
        * rewrite decide_False by done. intros Hq. right.
          apply (overlap_panel_None_inside p_s); [done|].
          exact (proj1 (Hother_s c q Hq (not_eq_sym Hac) Hct)).
      + intros Hp. destruct (decide (c = t)) as [->|Hct].
        * intros [= <-]. right. rewrite overlap_panel_sym.
          apply (overlap_panel_None_inside p_t); [done|].
          exact (proj2 (Hother_s a p Hp Has Hat)).
        * destruct (decide (c = s)) as [->|Hcs].
          -- intros [= <-]. right. rewrite overlap_panel_sym.
             apply (overlap_panel_None_inside p_s); [done|].
             exact (proj1 (Hother_s a p Hp Has Hat)).
          -- intros Hq. apply (Honly a c); (done || lia). }
  rewrite deoverlap_panels_visits.
  destruct (visits_split (length panels) s t Hls Hlt)
    as (pre & post & -> & Hpre).
  rewrite foldl_app. simpl.
  assert (Hpre_quiet : foldl visit_pair panels pre = panels).
  { clear post. induction pre as [|[a c] pre IH]; simpl; [done|].
    assert (Hac : visit_pair panels (a, c) = panels).
    { unfold visit_pair. simpl.
      destruct (decide (a = t ∧ c = s)) as [[-> ->]|Hts].
      - destruct Horder as [?|?]; [|done].
        destruct (Hpre t s) as [?|[? ?]]; [by left|lia|lia].
      - apply deoverlap_visit_apart. intros p q Hp Hq.
        apply (Honly a c); [done|done| |done].
        intros [-> ->]. destruct (Hpre s t) as [?|[? ?]]; [by left|lia|lia]. }
    rewrite Hac. apply IH. intros a' c' Hin. apply Hpre. by right. }
  rewrite Hpre_quiet. unfold visit_pair at 2. simpl. rewrite Hfire.
  clear Hpre. induction post as [|[a c] post IH]; simpl; [done|].
  unfold visit_pair at 2. simpl. by rewrite Hquiet'.
Qed.

Lemma only_overlap_sym (panels : list Panel) (s t : nat) :
  only_overlap panels s t → only_overlap panels t s.
Proof. intros H a c p q Hp Hq ? ?. by apply (H a c). Qed.

Lemma deoverlap_panels_quiet (panels : list Panel) :
  (∀ a c, deoverlap_visit panels a c = panels) →
  deoverlap_panels panels = panels.
Proof.
  intros H. rewrite deoverlap_panels_visits.
  induction (visits (length panels)) as [|[a c] vs IH]; simpl; [done|].
  unfold visit_pair at 2. simpl. by rewrite H.
Qed.

(** The whole pass on a page whose only overlapping panels are those at
    positions [i < j]: the panel sharing the bottom (right) edge of the
    overlap is cut back to the top (left) edge of the overlap, the other
    one starts at the bottom (right) edge of the overlap, and for both
    sharing it the first in the list is the one cut back. *)
Lemma deoverlap_panels_only_overlap (panels : list Panel) (i j : nat)
    (p1 p2 o : Panel) :
  (i < j)%nat → panels !! i = Some p1 → panels !! j = Some p2 →
  p1 ≠ p2 → overlap_panel p1 p2 = Some o → only_overlap panels i j →
  deoverlap_panels panels
  = if decide (h o < w o) then
      if decide (pb p1 = pb o)
      then <[j := setattr p2 DY (pb o)]> (<[i := setattr p1 DB (py o)]> panels)
      else <[i := setattr p1 DY (pb o)]> (<[j := setattr p2 DB (py o)]> panels)
    else if decide (w o < h o) then
      if decide (pr p1 = pr o)
      then <[j := setattr p2 DX (pr o)]> (<[i := setattr p1 DR (px o)]> panels)
      else <[i := setattr p1 DX (pr o)]> (<[j := setattr p2 DR (px o)]> panels)
    else panels.
Proof.
  intros Hij Hi Hj Hne Ho Honly.
  pose proof (overlap_panel_edges _ _ _ Ho) as [Hb Hr].
  pose proof (proj1 (overlap_panel_Some _ _ _) Ho) as (Heq & Hx & Hy).
  assert (Ho' : overlap_panel p2 p1 = Some o) by by rewrite overlap_panel_sym.
  assert (Hne' : p2 ≠ p1) by done.
  pose proof (only_overlap_sym _ _ _ Honly) as Honly'.
  repeat case_decide.
  - apply (deoverlap_panels_fire panels i j p1 p2 _ _ o); try done.
    + unfold outward. subst o; simpl in *. lia.
    + unfold outward. subst o; simpl in *. lia.
    + apply overlap_panel_None. subst o; simpl in *. lia.
    + by apply deoverlap_visit_wide.
    + by left.
  - destruct Hb as [?|Hb]; [done|].
    apply (deoverlap_panels_fire panels j i p2 p1 _ _ o); try done.
    + unfold outward. subst o; simpl in *. lia.
    + unfold outward. subst o; simpl in *. lia.
    + apply overlap_panel_None. subst o; simpl in *. lia.
    + by apply deoverlap_visit_wide.
    + right. by eapply deoverlap_visit_skip_wide.
  - apply (deoverlap_panels_fire panels i j p1 p2 _ _ o); try done.
    + unfold outward. subst o; simpl in *. lia.
    + unfold outward. subst o; simpl in *. lia.
    + apply overlap_panel_None. subst o; simpl in *. lia.
    + by apply deoverlap_visit_tall.
    + by left.
  - destruct Hr as [?|Hr]; [done|].
    apply (deoverlap_panels_fire panels j i p2 p1 _ _ o); try done.
    + unfold outward. subst o; simpl in *. lia.
    + unfold outward. subst o; simpl in *. lia.
    + apply overlap_panel_None. subst o; simpl in *. lia.
    + by apply deoverlap_visit_tall.
    + right. by eapply deoverlap_visit_skip_tall.
  - apply deoverlap_panels_quiet. intros a c.
    destruct (decide (a = i ∧ c = j)) as [[-> ->]|Hij'].
    { eapply deoverlap_visit_square; [done|done|done|lia]. }
    destruct (decide (a = j ∧ c = i)) as [[-> ->]|Hji'].
    { eapply deoverlap_visit_square; [done|done|done|lia]. }
    apply deoverlap_visit_apart. intros p q Hp Hq. by apply (Honly a c).
Qed.

(** *** The pass on a page with several overlapping pairs *)

(** A visit only cuts panels back. *)
Lemma deoverlap_visit_inward (st : list Panel) (i j : nat) :
  Forall2 (flip outward) st (deoverlap_visit st i j).
Proof.
  unfold deoverlap_visit.
  destruct (st !! i) as [p1|] eqn:Hi; [|apply Forall2_inward_refl].
  destruct (st !! j) as [p2|] eqn:Hj; [|apply Forall2_inward_refl].
  case_decide as Hne; [apply Forall2_inward_refl|].
  destruct (overlap_panel p1 p2) as [o|] eqn:Ho; [|apply Forall2_inward_refl].
  apply overlap_panel_Some in Ho as (Heq & Hx & Hy).
  assert (Hij : i ≠ j) by (intros ->; simplify_eq).
  destruct ((w o <? h o) && (pr p1 =? pr o)) eqn:E1;
    [|destruct ((h o <? w o) && (pb p1 =? pb o)) eqn:E2;
      [|apply Forall2_inward_refl]].
  - apply (Forall2_inward_trans _ (<[i := setattr p1 DR (px o)]> st)).
    + apply (Forall2_inward_insert st i p1); [done|].
      unfold outward. subst o; simpl in *. lia.
    + apply (Forall2_inward_insert _ j p2).
      * by rewrite list_lookup_insert_ne.
      * unfold outward. subst o; simpl in *. lia.
  - apply (Forall2_inward_trans _ (<[i := setattr p1 DB (py o)]> st)).
    + apply (Forall2_inward_insert st i p1); [done|].
      unfold outward. subst o; simpl in *. lia.
    + apply (Forall2_inward_insert _ j p2).
      * by rewrite list_lookup_insert_ne.
      * unfold outward. subst o; simpl in *. lia.
Qed.

(** A visit writes at its two positions only. *)
Lemma deoverlap_visit_lookup_ne (st : list Panel) (a c k : nat) :
  k ≠ a → k ≠ c → deoverlap_visit st a c !! k = st !! k.
Proof.
  intros Ha Hc. unfold deoverlap_visit.
  destruct (st !! a) as [p1|]; [|done].
  destruct (st !! c) as [p2|]; [|done].
  case_decide; [done|].
  destruct (overlap_panel p1 p2) as [o|]; [|done].
  repeat case_match; by rewrite ?list_lookup_insert_ne.
Qed.

Lemma pair_state_visit (panels : list Panel) (s t : nat)
    (p_s p_t X Y : Panel) (st : list Panel) (a c : nat) :
  panels !! s = Some p_s → panels !! t = Some p_t → s ≠ t →
  no_third_overlap panels s t →
  outward X p_s → outward Y p_t →
  pair_state panels s t X Y st →
  ((a = s ∧ c = t) ∨ (a = t ∧ c = s) → deoverlap_visit st a c = st) →
  pair_state panels s t X Y (deoverlap_visit st a c).
Proof.
  intros Hs Ht Hst Hno HX HY (HsX & HtY & Hrest) Hq.
  (* a visit of one of the two and a third panel is quiet *)
  assert (Hthird : ∀ k Z pk c q',
            (k = s ∨ k = t) → panels !! k = Some pk → outward Z pk →
            c ≠ s → c ≠ t → st !! c = Some q' →
            overlap_panel Z q' = None).
  { intros k Z pk c0 q' Hk Hpk HZ Hcs Hct Hc0.
    destruct (Hrest c0 q' Hcs Hct Hc0) as (q & Hq0 & Hin).
    assert (H0 : overlap_panel pk q = None) by by apply (Hno k c0).
    apply (overlap_panel_None_inside pk); [done|].
    rewrite overlap_panel_sym. apply (overlap_panel_None_inside q); [done|].
    by rewrite overlap_panel_sym. }
  assert (Hquiet : (a = s ∨ a = t ∨ c = s ∨ c = t) →
                   deoverlap_visit st a c = st).
  { intros Hac.
    destruct (decide (a = c)) as [->|Hne]; [apply deoverlap_visit_diag|].
    destruct (decide ((a = s ∧ c = t) ∨ (a = t ∧ c = s))) as [?|Hpair];
      [by apply Hq|].
    apply deoverlap_visit_apart. intros p q Hp Hq'. right.
    destruct (decide (a = s)) as [->|Has].
    { assert (p = X) by congruence. subst p.
      apply (Hthird s X p_s c q); [by left|done|done|congruence| |done].
      intros ->. apply Hpair. by left. }
    destruct (decide (a = t)) as [->|Hat].
    { assert (p = Y) by congruence. subst p.
      apply (Hthird t Y p_t c q); [by right|done|done| |congruence|done].
      intros ->. apply Hpair. by right. }
    rewrite overlap_panel_sym.
    destruct (decide (c = s)) as [->|Hcs].
    { assert (q = X) by congruence. subst q.
      apply (Hthird s X p_s a p); [by left|done..]. }
    destruct (decide (c = t)) as [->|Hct].
    { assert (q = Y) by congruence. subst q.
      apply (Hthird t Y p_t a p); [by right|done..]. }
    lia. }
  destruct (decide (a = s ∨ a = t ∨ c = s ∨ c = t)) as [Hac|Hac].
  { rewrite Hquiet by done. done. }
  split; [|split].
  - rewrite deoverlap_visit_lookup_ne by lia. done.
  - rewrite deoverlap_visit_lookup_ne by lia. done.
  - intros k q'' Hks Hkt Hk.
    pose proof (deoverlap_visit_inward st a c) as Hin.
    destruct (Forall2_lookup_r _ _ _ k q'' Hin Hk) as (q' & Hq' & Ho).
    destruct (Hrest k q' Hks Hkt Hq') as (q & Hq0 & Ho').
    exists q. split; [done|]. unfold flip in Ho. by eapply outward_trans.
Qed.

Lemma pair_state_visits (panels : list Panel) (s t : nat)
    (p_s p_t X Y : Panel) (vs : list (nat * nat)) (st : list Panel) :
  panels !! s = Some p_s → panels !! t = Some p_t → s ≠ t →
  no_third_overlap panels s t →
  outward X p_s → outward Y p_t →
  (∀ a c st', (a, c) ∈ vs → (a = s ∧ c = t) ∨ (a = t ∧ c = s) →
              st' !! s = Some X → st' !! t = Some Y →
              deoverlap_visit st' a c = st') →
  pair_state panels s t X Y st →
  pair_state panels s t X Y (foldl visit_pair st vs).
Proof.
  intros Hs Ht Hst Hno HX HY. revert st.
  induction vs as [|[a c] vs IH]; intros st Hq Hstate; simpl; [done|].
  apply IH.
  - intros a' c' st' Hin. apply Hq. by right.
  - unfold visit_pair. simpl.
    apply (pair_state_visit panels s t p_s p_t X Y st a c); try done.
    intros Hac. destruct Hstate as (? & ? & _). apply Hq; [by left|done..].
Qed.

Lemma pair_state_start (panels : list Panel) (s t : nat) (p_s p_t : Panel) :
  panels !! s = Some p_s → panels !! t = Some p_t →
  pair_state panels s t p_s p_t panels.
Proof.
  intros Hs Ht. split; [done|]. split; [done|].
  intros c q' _ _ Hc. exists q'. split; [done|apply outward_refl].
Qed.

(** The pass seen from an overlapping pair off all other panels: when the
    visit of [(s, t)] is met first and cuts the two panels apart, the pass
    leaves them as this visit made them. *)
Lemma deoverlap_panels_pair (panels : list Panel) (s t : nat)
    (p_s p_t p_s' p_t' : Panel) :
  panels !! s = Some p_s → panels !! t = Some p_t → s ≠ t →
  no_third_overlap panels s t →
  outward p_s' p_s → outward p_t' p_t → overlap_panel p_s' p_t' = None →
  (∀ st, st !! s = Some p_s → st !! t = Some p_t →
         deoverlap_visit st s t = <[t := p_t']> (<[s := p_s']> st)) →
  ((s < t)%nat
   ∨ ∀ st, st !! s = Some p_s → st !! t = Some p_t →
           deoverlap_visit st t s = st) →
  deoverlap_panels panels !! s = Some p_s'
  ∧ deoverlap_panels panels !! t = Some p_t'.
Proof.
  intros Hs Ht Hst Hno Hin_s Hin_t Hnone Hfire Horder.
  pose proof (lookup_lt_Some _ _ _ Hs) as Hls.
  pose proof (lookup_lt_Some _ _ _ Ht) as Hlt.
  rewrite deoverlap_panels_visits.
  destruct (visits_split (length panels) s t Hls Hlt)
    as (pre & post & -> & Hpre).
  rewrite foldl_app. simpl.
  assert (H1 : pair_state panels s t p_s p_t (foldl visit_pair panels pre)).
  { apply (pair_state_visits panels s t p_s p_t p_s p_t pre panels Hs Ht Hst
             Hno (outward_refl _) (outward_refl _));
      [|by apply pair_state_start].
    intros a c st' Hin [[-> ->]|[-> ->]] HsX HtY.
    - destruct (Hpre s t Hin) as [?|[? ?]]; lia.
    - destruct Horder as [Hlt'|Hskip]; [|by apply Hskip].
      destruct (Hpre t s Hin) as [?|[? ?]]; lia. }
  set (st1 := foldl visit_pair panels pre) in *.
  assert (H2 : pair_state panels s t p_s' p_t' (visit_pair st1 (s, t))).
  { destruct H1 as (HsX & HtY & Hrest).
    unfold visit_pair. simpl. rewrite Hfire by done.
    pose proof (lookup_lt_Some _ _ _ HsX). pose proof (lookup_lt_Some _ _ _ HtY).
    split; [|split].
    - rewrite list_lookup_insert_ne by done. by rewrite list_lookup_insert_eq.
    - rewrite list_lookup_insert_eq; [done|]. by rewrite length_insert.
    - intros c q' Hcs Hct. rewrite !list_lookup_insert_ne by done.
      by apply Hrest. }
  assert (H3 : pair_state panels s t p_s' p_t'
                 (foldl visit_pair (visit_pair st1 (s, t)) post)).
  { apply (pair_state_visits panels s t p_s p_t p_s' p_t' post _ Hs Ht Hst
             Hno Hin_s Hin_t); [|done].
    intros a c st' _ [[-> ->]|[-> ->]] HsX HtY.
    - apply (deoverlap_visit_quiet st' s t p_s' p_t'); auto.
    - apply (deoverlap_visit_quiet st' t s p_t' p_s'); auto.
      right. by rewrite overlap_panel_sym. }
  destruct H3 as (? & ? & _). done.
Qed.

(** The same when no visit of the pair changes it. *)
Lemma deoverlap_panels_pair_quiet (panels : list Panel) (s t : nat)
    (p_s p_t : Panel) :
  panels !! s = Some p_s → panels !! t = Some p_t → s ≠ t →
  no_third_overlap panels s t →
  (∀ a c st, (a = s ∧ c = t) ∨ (a = t ∧ c = s) →
             st !! s = Some p_s → st !! t = Some p_t →
             deoverlap_visit st a c = st) →
  deoverlap_panels panels !! s = Some p_s
  ∧ deoverlap_panels panels !! t = Some p_t.
Proof.
  intros Hs Ht Hst Hno Hq.
  rewrite deoverlap_panels_visits.
  destruct (pair_state_visits panels s t p_s p_t p_s p_t
              (visits (length panels)) panels Hs Ht Hst Hno
              (outward_refl _) (outward_refl _)) as (? & ? & _);
    [|by apply pair_state_start|done].
  intros a c st' _. apply Hq.
Qed.

Lemma no_third_overlap_sym (panels : list Panel) (i j : nat) :
  no_third_overlap panels i j → no_third_overlap panels j i.
Proof.
  intros H a c p q Ha Hci Hcj. apply H; [tauto|done|done].
Qed.

(** *** What the pass makes of an overlapping pair *)

(** C3, amended: take two panels of different rectangles whose overlap [O]
    is not empty and neither of which overlaps a third panel of the page.
    When [O] is wider than tall, the pass [deoverlap_panels] leaves the
    panel that shares the bottom edge of [O] (the earlier one in the list
    when both do) with its [b] at [O.y], and the other one with its [y] at
    [O.b]; when [O] is taller than wide, it leaves the panel that shares
    the right edge of [O] (the earlier one when both do) with its [r] at
    [O.x], and the other one with its [x] at [O.r]; when [O] is a square,
    it leaves both panels as they were. *)
Theorem deoverlap_panels_adjusts (panels : list Panel) (i j : nat)
    (p1 p2 o : Panel) :
  panels !! i = Some p1 → panels !! j = Some p2 → p1 ≠ p2 →
  overlap_panel p1 p2 = Some o →
  no_third_overlap panels i j →
  (h o < w o →
     ∃ s t ps pt,
       (s = i ∧ t = j ∨ s = j ∧ t = i)
       ∧ panels !! s = Some ps ∧ panels !! t = Some pt
       ∧ pb ps = pb o ∧ (pb pt = pb o → (s < t)%nat)
       ∧ deoverlap_panels panels !! s = Some (setattr ps DB (py o))
       ∧ deoverlap_panels panels !! t = Some (setattr pt DY (pb o)))
  ∧ (w o < h o →
     ∃ s t ps pt,
       (s = i ∧ t = j ∨ s = j ∧ t = i)
       ∧ panels !! s = Some ps ∧ panels !! t = Some pt
       ∧ pr ps = pr o ∧ (pr pt = pr o → (s < t)%nat)
       ∧ deoverlap_panels panels !! s = Some (setattr ps DR (px o))
       ∧ deoverlap_panels panels !! t = Some (setattr pt DX (pr o)))
  ∧ (w o = h o →
     deoverlap_panels panels !! i = Some p1
     ∧ deoverlap_panels panels !! j = Some p2).
Proof.
  intros Hi Hj Hne Ho Hno.
  assert (Hij : i ≠ j) by (intros ->; simplify_eq).
  assert (Hne' : p2 ≠ p1) by done.
  pose proof (overlap_panel_edges _ _ _ Ho) as [Hb Hr].
  pose proof (proj1 (overlap_panel_Some _ _ _) Ho) as (Heq & Hx & Hy).
  assert (Ho' : overlap_panel p2 p1 = Some o) by by rewrite overlap_panel_sym.
  pose proof (no_third_overlap_sym _ _ _ Hno) as Hno'.
  split; [|split].
  - intros Hw.
    destruct (decide (pb p1 = pb o ∧ ((i < j)%nat ∨ pb p2 ≠ pb o)))
      as [[E Hord]|Hn].
    + exists i, j, p1, p2. split; [by left|]. do 3 (split; [done|]).
      split; [intros E2; by destruct Hord|].
      apply (deoverlap_panels_pair panels i j p1 p2); try done.
      * unfold outward. subst o; simpl in *. lia.
      * unfold outward. subst o; simpl in *. lia.
      * apply overlap_panel_None. subst o; simpl in *. lia.
      * intros st ? ?. by apply (deoverlap_visit_wide st i j p1 p2 o).
      * destruct Hord as [?|Hp2]; [by left|right]. intros st ? ?.
        by apply (deoverlap_visit_skip_wide st j i p2 p1 o).
    + assert (pb p2 = pb o ∧ ((j < i)%nat ∨ pb p1 ≠ pb o)) as [E Hord].
      { destruct (decide (pb p1 = pb o)), (decide (pb p2 = pb o));
          [split; [done|left]|exfalso|by split; [|right]|tauto].
        - destruct (decide (i < j)%nat); [|lia]. exfalso. apply Hn. by split; [|left].
        - apply Hn. by split; [|right]. }
      exists j, i, p2, p1. split; [by right|]. do 3 (split; [done|]).
      split; [intros E2; by destruct Hord|].
      apply (deoverlap_panels_pair panels j i p2 p1); try done.
      * unfold outward. subst o; simpl in *. lia.
      * unfold outward. subst o; simpl in *. lia.
      * apply overlap_panel_None. subst o; simpl in *. lia.
      * intros st ? ?. by apply (deoverlap_visit_wide st j i p2 p1 o).
      * destruct Hord as [?|Hp1]; [by left|right]. intros st ? ?.
        by apply (deoverlap_visit_skip_wide st i j p1 p2 o).
  - intros Hw.
    destruct (decide (pr p1 = pr o ∧ ((i < j)%nat ∨ pr p2 ≠ pr o)))
      as [[E Hord]|Hn].
    + exists i, j, p1, p2. split; [by left|]. do 3 (split; [done|]).
      split; [intros E2; by destruct Hord|].
      apply (deoverlap_panels_pair panels i j p1 p2); try done.
      * unfold outward. subst o; simpl in *. lia.
      * unfold outward. subst o; simpl in *. lia.
      * apply overlap_panel_None. subst o; simpl in *. lia.
      * intros st ? ?. by apply (deoverlap_visit_tall st i j p1 p2 o).
      * destruct Hord as [?|Hp2]; [by left|right]. intros st ? ?.
        by apply (deoverlap_visit_skip_tall st j i p2 p1 o).
    + assert (pr p2 = pr o ∧ ((j < i)%nat ∨ pr p1 ≠ pr o)) as [E Hord].
      { destruct (decide (pr p1 = pr o)), (decide (pr p2 = pr o));
          [split; [done|left]|exfalso|by split; [|right]|tauto].
        - destruct (decide (i < j)%nat); [|lia]. exfalso. apply Hn. by split; [|left].
        - apply Hn. by split; [|right]. }
      exists j, i, p2, p1. split; [by right|]. do 3 (split; [done|]).
      split; [intros E2; by destruct Hord|].
      apply (deoverlap_panels_pair panels j i p2 p1); try done.
      * unfold outward. subst o; simpl in *. lia.
      * unfold outward. subst o; simpl in *. lia.
      * apply overlap_panel_None. subst o; simpl in *. lia.
      * intros st ? ?. by apply (deoverlap_visit_tall st j i p2 p1 o).
      * destruct Hord as [?|Hp1]; [by left|right]. intros st ? ?.
        by apply (deoverlap_visit_skip_tall st i j p1 p2 o).
  - intros Hw.
    apply (deoverlap_panels_pair_quiet panels i j p1 p2); try done.
    intros a c st [[-> ->]|[-> ->]] ? ?.
    + by apply (deoverlap_visit_square st i j p1 p2 o).
    + by apply (deoverlap_visit_square st j i p2 p1 o).
Qed.

Lemma deoverlap_panels_adjusts_witness :
  let O := mkPanel 0 50 100 60 in
  ∃ s t ps pt,
    (s = 0%nat ∧ t = 1%nat ∨ s = 1%nat ∧ t = 0%nat)
    ∧ two_pairs !! s = Some ps ∧ two_pairs !! t = Some pt
    ∧ pb ps = pb O ∧ (pb pt = pb O → (s < t)%nat)
    ∧ deoverlap_panels two_pairs !! s = Some (setattr ps DB (py O))
    ∧ deoverlap_panels two_pairs !! t = Some (setattr pt DY (pb O)).
Proof.
  apply (proj1 (deoverlap_panels_adjusts two_pairs 0 1
                  (mkPanel 0 0 100 60) (mkPanel 0 50 100 120)
                  (mkPanel 0 50 100 60) eq_refl eq_refl
                  ltac:(discriminate) eq_refl
                  ltac:(intros a c p q [->| ->] Hc0 Hc1 Hp Hq;
                        destruct c as [|[|[|[|c]]]]; simplify_eq/=;
                        reflexivity))).
  reflexivity.
Defined.

(** C3 as stated fails on two pages.  On [strip_A], [strip_B], [strip_C]
    the first panel overlaps the two others; the pass cuts [strip_A] and
    [strip_B] apart, after which [strip_A] and [strip_C] do not meet any
    more, and their overlap, 5 wide and 7 tall, is never adjusted: the [r]
    of [strip_A] stays at 100 and the [x] of [strip_C] at 95.  On
    [corner_A], [corner_B] the overlap is a square, which is not wider
    than tall, and the pass changes nothing. *)
Lemma deoverlap_panels_leaves_overlap :
  (deoverlap_panels [strip_A; strip_B; strip_C]
   = [mkPanel 0 0 100 90; mkPanel 0 100 100 200; strip_C]
   ∧ overlap_panel strip_A strip_C = Some (mkPanel 95 92 100 99)
   ∧ ¬ adjusts_every_overlap [strip_A; strip_B; strip_C]
         (deoverlap_panels [strip_A; strip_B; strip_C]))
  ∧ (deoverlap_panels [corner_A; corner_B] = [corner_A; corner_B]
     ∧ overlap_panel corner_A corner_B = Some (mkPanel 90 90 100 100)
     ∧ ¬ adjusts_every_overlap [corner_A; corner_B]
           (deoverlap_panels [corner_A; corner_B])).
Proof.
  split; (split; [reflexivity|]); (split; [reflexivity|]); intros H.
  - destruct (H 0%nat 2%nat strip_A strip_C (mkPanel 95 92 100 99)
                eq_refl eq_refl ltac:(discriminate) eq_refl)
      as (p' & q' & [= <-] & [= <-] & Hadj).
    unfold overlap_adjusted in Hadj. simpl in Hadj.
    destruct Hadj as [(? & ? & ?)|(? & ? & ?)]; discriminate.
  - destruct (H 0%nat 1%nat corner_A corner_B (mkPanel 90 90 100 100)
                eq_refl eq_refl ltac:(discriminate) eq_refl)
      as (p' & q' & [= <-] & [= <-] & Hadj).
    unfold overlap_adjusted in Hadj. simpl in Hadj.
    destruct Hadj as [(? & ? & ?)|(? & ? & ?)]; discriminate.
Qed.

(** ** [actual_gutters] and [get_infos] *)

Lemma foldl_Zmin_le (l : list Z) (a : Z) :
  foldl Z.min a l <= a ∧ ∀ z, z ∈ l → foldl Z.min a l <= z.
Proof.
  revert a. induction l as [|c l IH]; intros a; simpl.
  - split; [lia|]. intros z Hz. by apply elem_of_nil in Hz.
  - destruct (IH (Z.min a c)) as [H1 H2]. split; [lia|].
    intros z [->|Hz]%elem_of_cons; [lia | auto].
Qed.

Lemma foldl_Zmin_elem (l : list Z) (a : Z) : foldl Z.min a l ∈ a :: l.
Proof.
  revert a. induction l as [|c l IH]; intros a; simpl; [by left|].
  specialize (IH (Z.min a c)). apply elem_of_cons in IH as [->|IH].
  - destruct (Z.min_spec a c) as [[_ ->]|[_ ->]]; [by left | right; by left].
  - right; by right.
Qed.

(** [py_min] of a non-empty list is its least element. *)
Lemma py_min_spec (l : list Z) :
  l ≠ [] → py_min l ∈ l ∧ ∀ z, z ∈ l → py_min l <= z.
Proof.
  destruct l as [|a l]; [done|]. intros _. simpl. split.
  - apply foldl_Zmin_elem.
  - destruct (foldl_Zmin_le l a) as [H1 H2].
    intros z [->|Hz]%elem_of_cons; auto.
Qed.

Lemma py_min_gaps (find : list Panel → Panel → option Panel)
    (gap : Panel → Panel → Z) (panels : list Panel) :
  min_gap_or_one find gap panels
    (py_min (or_one (omap (λ p, gap p <$> find panels p) panels))).
Proof.
  set (f := λ p, gap p <$> find panels p).
  assert (Hin : ∀ z, z ∈ omap f panels
                 ↔ ∃ p n, p ∈ panels ∧ find panels p = Some n ∧ z = gap p n).
  { intros z. rewrite list_elem_of_omap. unfold f. split.
    - intros (p & Hp & Hf). destruct (find panels p) as [n|] eqn:E;
        simplify_eq/=. eauto.
    - intros (p & n & Hp & E & ->). exists p. by rewrite E. }
  destruct (omap f panels) as [|a l] eqn:El.
  - left. split; [|done]. intros p Hp.
    destruct (find panels p) as [n|] eqn:E; [|done].
    exfalso. eapply elem_of_nil, Hin. eauto.
  - right. destruct (py_min_spec (a :: l)) as [Hm Hle]; [done|]. split.
    + by apply Hin.
    + intros p n Hp E. apply Hle, Hin. eauto.
Qed.

Section GutterProps.
Context `{NS : NeighbourSearch}.

(** C8: the [gutters] field is [[gx, gy]] with [gx] the least horizontal
    gap [p.x - left.r] and [gy] the least vertical gap [p.y - top.b] over
    the panels that have such a neighbour, 1 when none has; and
    [actual_gutters] holds the negated values under [r] and [b]. *)
Theorem get_infos_gutters (cfg : PageCfg) (panels : list Panel) :
  ∃ gx gy : Z,
    info_gutters (get_infos cfg panels) = [gx; gy]
    ∧ min_gap_or_one find_left_panel (λ p n, px p - pr n) panels gx
    ∧ min_gap_or_one find_top_panel (λ p n, py p - pb n) panels gy
    ∧ actual_gutters panels = mkGutters gx gy (- gx) (- gy).
Proof.
  exists (gutter_x (actual_gutters panels)), (gutter_y (actual_gutters panels)).
  split; [reflexivity|]. split; [|split; [|reflexivity]].
  - apply (py_min_gaps find_left_panel (λ p n, px p - pr n)).
  - apply (py_min_gaps find_top_panel (λ p n, py p - pb n)).
Qed.
End GutterProps.

(** The gutters of the 2 x 2 grid are 40 and 40. *)
Lemma get_infos_gutters_witness :
  info_gutters (@get_infos spec_find_neighbour
                  (mkCfg 800 1200 "ltr" (1 # 15)) grid_2x2) = [40; 40]
  ∧ ∃ gx gy : Z,
      info_gutters (@get_infos spec_find_neighbour
                      (mkCfg 800 1200 "ltr" (1 # 15)) grid_2x2) = [gx; gy]
      ∧ min_gap_or_one (@find_left_panel spec_find_neighbour)
          (λ p n, px p - pr n) grid_2x2 gx
      ∧ min_gap_or_one (@find_top_panel spec_find_neighbour)
          (λ p n, py p - pb n) grid_2x2 gy
      ∧ @actual_gutters spec_find_neighbour grid_2x2
        = mkGutters gx gy (- gx) (- gy).
Proof.
  split; [reflexivity|].
  exact (@get_infos_gutters spec_find_neighbour
           (mkCfg 800 1200 "ltr" (1 # 15)) grid_2x2).
Defined.

(** ** [expand_panels] *)

Lemma Forall2_outward_refl (l : list Panel) : Forall2 outward l l.
Proof. induction l; constructor; auto using outward_refl. Qed.

Lemma Forall2_outward_trans (l k m : list Panel) :
  Forall2 outward l k → Forall2 outward k m → Forall2 outward l m.
Proof.
  intros H. revert m. induction H; intros m Hm; inversion Hm; subst;
    constructor; eauto using outward_trans.
Qed.

Lemma Forall2_outward_insert (l : list Panel) (i : nat) (p p' : Panel) :
  l !! i = Some p → outward p p' → Forall2 outward l (<[i := p']> l).
Proof.
  revert i. induction l as [|q l IH]; intros [|i] Hi Ho; simplify_eq/=.
  - constructor; [done | apply Forall2_outward_refl].
  - constructor; [apply outward_refl | by eapply IH].
Qed.

Section ExpandProps.
Context `{NS : NeighbourSearch}.

Lemma expand_visit_outward (g : Gutters) (st : list Panel) (i : nat) (d : Dir) :
  Forall2 outward st (expand_visit g st i d).
Proof.
  unfold expand_visit.
  destruct (st !! i) as [p|] eqn:Hi; [|apply Forall2_outward_refl].
  case_decide; [|apply Forall2_outward_refl].
  destruct (_ || _) eqn:Hmove; [|apply Forall2_outward_refl].
  eapply Forall2_outward_insert; [done|].
  unfold outward. destruct d; simpl in *;
    repeat match goal with
    | H : _ || _ = true |- _ => apply orb_true_iff in H as [H|H]
    | H : _ && _ = true |- _ => apply andb_true_iff in H as [? H]
    | H : (_ <? _) = true |- _ => apply Z.ltb_lt in H
    end; try discriminate; lia.
Qed.

Lemma expand_panel_outward (g : Gutters) (st : list Panel) (i : nat) :
  Forall2 outward st (expand_panel g st i).
Proof.
  unfold expand_panel. generalize [DX; DY; DR; DB]. intros ds. revert st.
  induction ds as [|d ds IH]; intros st; simpl; [apply Forall2_outward_refl|].
  eapply Forall2_outward_trans; [apply expand_visit_outward | apply IH].
Qed.

Lemma expand_loop_outward (g : Gutters) (idx : list nat) (st : list Panel) :
  Forall2 outward st (foldl (expand_panel g) st idx).
Proof.
  revert st. induction idx as [|i idx IH]; intros st; simpl;
    [apply Forall2_outward_refl|].
  eapply Forall2_outward_trans; [apply expand_panel_outward | apply IH].
Qed.

(** C6: [expand_panels] keeps the number and the positions of the panels,
    and the panel at every position has, after the pass, its [x] and [y] at
    most what they were and its [r] and [b] at least what they were. *)
Theorem expand_panels_outward (panels : list Panel) :
  length (expand_panels panels) = length panels
  ∧ ∀ (i : nat) (p p' : Panel),
      panels !! i = Some p → expand_panels panels !! i = Some p' →
      px p' <= px p ∧ py p' <= py p ∧ pr p <= pr p' ∧ pb p <= pb p'.
Proof.
  assert (H : Forall2 outward panels (expand_panels panels))
    by apply expand_loop_outward.
  split; [symmetry; by eapply Forall2_length|].
  intros i p p' Hp Hp'. by eapply (Forall2_lookup_lr _ _ _ i) in H.
Qed.

(** C10: when the candidate coordinate computed for a panel and a side is
    the sentinel [-1], the visit changes nothing, whatever the edge is; and
    a visit that changes the page applied a candidate other than [-1]. *)
Theorem expand_visit_sentinel (g : Gutters) (panels : list Panel) (i : nat)
    (p : Panel) (d : Dir) :
  panels !! i = Some p →
  (newcoord panels g p d = -1 → expand_visit g panels i d = panels)
  ∧ (expand_visit g panels i d ≠ panels →
     newcoord panels g p d ≠ -1
     ∧ expand_visit g panels i d
       = <[i := setattr p d (newcoord panels g p d)]> panels).
Proof.
  intros Hi. unfold expand_visit. rewrite Hi. split.
  - intros ->. by rewrite decide_False by (intros ?; done).
  - case_decide; [|done]. destruct (_ || _); done.
Qed.
End ExpandProps.

(** A page on which the sentinel blocks an outward move: the frame of the
    two panels starts at [x = -1], the first panel has no left neighbour,
    and its left edge stays at 5. *)
Lemma expand_visit_sentinel_witness :
  let panels := [mkPanel 5 0 10 10; mkPanel (-1) 20 8 30] in
  let g := @actual_gutters spec_find_neighbour panels in
  @newcoord spec_find_neighbour panels g (mkPanel 5 0 10 10) DX = -1
  ∧ -1 < px (mkPanel 5 0 10 10)
  ∧ @expand_visit spec_find_neighbour g panels 0 DX = panels.
Proof.
  split; [reflexivity|]. split; [reflexivity|].
  apply (proj1 (@expand_visit_sentinel spec_find_neighbour
                  (@actual_gutters spec_find_neighbour
                     [mkPanel 5 0 10 10; mkPanel (-1) 20 8 30])
                  [mkPanel 5 0 10 10; mkPanel (-1) 20 8 30] 0
                  (mkPanel 5 0 10 10) DX eq_refl)).
  reflexivity.
Defined.

(** Two panels side by side, the right one starting lower: the pass moves
    its top edge up to the frame of the page and leaves the rest. *)
Lemma expand_panels_outward_witness :
  let panels := [mkPanel 20 20 380 580; mkPanel 420 30 780 580] in
  @expand_panels spec_find_neighbour panels
  = [mkPanel 20 20 380 580; mkPanel 420 20 780 580]
  ∧ length (@expand_panels spec_find_neighbour panels) = length panels
  ∧ ∀ (i : nat) (p p' : Panel),
      panels !! i = Some p →
      @expand_panels spec_find_neighbour panels !! i = Some p' →
      px p' <= px p ∧ py p' <= py p ∧ pr p <= pr p' ∧ pb p <= pb p'.
Proof.
  split; [reflexivity|].
  exact (@expand_panels_outward spec_find_neighbour
           [mkPanel 20 20 380 580; mkPanel 420 30 780 580]).
Defined.

(** ** The neighbour search of the specification *)

Lemma spec_find_neighbour_in_page : neighbours_in_page spec_find_neighbour.
Proof.
  intros panels p d n. unfold find_neighbour_panel, spec_find_neighbour.
  assert (H : ∀ (l : list Panel) best n,
    foldl (λ best q,
             if is_neighbour_candidate d p q then
               match best with
               | None => Some q
               | Some m => if better_neighbour d p q m then Some q else Some m
               end
             else best) best l = Some n →
    n ∈ l ∨ best = Some n).
  { induction l as [|q l IH]; intros best m; simpl; [by right|].
    intros [Hm|Hm]%IH; [left; by right|].
    destruct (is_neighbour_candidate d p q); [|by right].
    destruct best as [m'|]; [|simplify_eq; left; by left].
    destruct (better_neighbour d p q m'); simplify_eq;
      [left; by left | by right]. }
  intros [?|?]%H; done.
Qed.

(** ** The fallback panel *)

Section FallbackProps.
Context `{NS : NeighbourSearch}.

Lemma py_index_singleton (p n : Panel) :
  n ∈ [p] → py_index n [p] = Some 0%nat.
Proof.
  intros ->%list_elem_of_singleton. unfold py_index. simpl.
  by rewrite decide_True.
Qed.

Lemma sweep_singleton (cfg : PageCfg) (p : Panel) :
  neighbours_in_page NS → sweep cfg [p] = NoChange.
Proof.
  intros Hin. unfold sweep, sweep_from, neighbours_before, try_neighbours.
  unfold find_top_panel, find_right_panel, find_left_panel.
  destruct (find_neighbour_panel [p] p DY) as [n|] eqn:Et.
  - rewrite (py_index_singleton p n) by (by eapply Hin). simpl.
    destruct (String.eqb (numbering cfg) "rtl").
    + destruct (find_neighbour_panel [p] p DR) as [m|] eqn:Es; [|done].
      by rewrite (py_index_singleton p m) by (by eapply Hin).
    + destruct (find_neighbour_panel [p] p DX) as [m|] eqn:Es; [|done].
      by rewrite (py_index_singleton p m) by (by eapply Hin).
  - destruct (String.eqb (numbering cfg) "rtl").
    + destruct (find_neighbour_panel [p] p DR) as [m|] eqn:Es; [|done].
      by rewrite (py_index_singleton p m) by (by eapply Hin).
    + destruct (find_neighbour_panel [p] p DX) as [m|] eqn:Es; [|done].
      by rewrite (py_index_singleton p m) by (by eapply Hin).
Qed.

(** C9: when the expansion pass leaves no panel, the constructor ends
    without an exception and with exactly one panel, at [x = 0], [y = 0]
    and of the width and height of the image. *)
Theorem finish_page_empty (fuel : nat) (cfg : PageCfg) (expanded : list Panel) :
  neighbours_in_page NS →
  expanded = [] →
  ∃ full : Panel,
    finish_page (S fuel) cfg expanded = Finished [full]
    ∧ to_xywh full = [0; 0; img_w cfg; img_h cfg].
Proof.
  intros Hin ->. exists (from_xywh 0 0 (img_w cfg) (img_h cfg)). split.
  - unfold finish_page, fallback_full_page. simpl.
    by rewrite sweep_singleton.
  - unfold to_xywh, w, h. simpl. repeat f_equal; lia.
Qed.
End FallbackProps.

Lemma finish_page_empty_witness :
  ∃ full : Panel,
    @finish_page spec_find_neighbour 1 (mkCfg 800 1200 "ltr" (1 # 15)) []
    = Finished [full]
    ∧ to_xywh full = [0; 0; 800; 1200].
Proof.
  exact (@finish_page_empty spec_find_neighbour 0
           (mkCfg 800 1200 "ltr" (1 # 15)) []
           spec_find_neighbour_in_page eq_refl).
Defined.

(** ** [fix_panels_numbering] *)

Lemma py_index_Some (n : Panel) (l : list Panel) (pos : nat) :
  py_index n l = Some pos → l !! pos = Some n.
Proof.
  unfold py_index. destruct (list_find _ l) as [[i q]|] eqn:E; [|done].
  intros [= <-]. apply list_find_Some in E as (Hi & -> & _). done.
Qed.

Lemma py_index_elem_of (n : Panel) (l : list Panel) :
  n ∈ l → ∃ pos, py_index n l = Some pos.
Proof.
  intros Hn. unfold py_index.
  destruct (list_find_elem_of (λ q, q = n) l n Hn eq_refl) as [[i q] ->].
  by exists i.
Qed.

(** Popping position [k] and inserting the panel again at a later position
    [pos] puts it right after the panel that was at [pos]. *)
Lemma move_after (l : list Panel) (k pos : nat) (p n : Panel) :
  l !! k = Some p → l !! pos = Some n → (k < pos)%nat →
  ∃ pre mid post,
    l = pre ++ p :: mid ++ n :: post
    ∧ py_insert pos p (delete k l) = pre ++ mid ++ n :: p :: post.
Proof.
  intros Hk Hpos Hlt.
  pose proof (take_drop_middle l k p Hk) as Hl.
  assert (Hpos' : drop (S k) l !! (pos - S k)%nat = Some n).
  { rewrite lookup_drop. by replace (S k + (pos - S k))%nat with pos by lia. }
  pose proof (take_drop_middle _ _ _ Hpos') as Hd.
  set (pre := take k l) in *. set (mid := take (pos - S k) (drop (S k) l)) in *.
  set (post := drop (S (pos - S k)) (drop (S k) l)) in *.
  exists pre, mid, post. split; [by rewrite Hd|].
  assert (Hlen_pre : length pre = k).
  { unfold pre. rewrite length_take. apply lookup_lt_Some in Hk. lia. }
  assert (Hlen_mid : length mid = (pos - S k)%nat).
  { unfold mid. rewrite length_take, length_drop.
    apply lookup_lt_Some in Hpos. lia. }
  rewrite delete_take_drop. fold pre. rewrite <-Hd.
  unfold py_insert.
  replace pos with (length (pre ++ mid ++ [n])) at 1 2
    by (rewrite !length_app; simpl; lia).
  replace (pre ++ mid ++ n :: post) with ((pre ++ mid ++ [n]) ++ post)
    by (by rewrite <-!app_assoc).
  rewrite take_app_length, drop_app_length.
  by rewrite <-!app_assoc.
Qed.

Section NumberingProps.
Context `{NS : NeighbourSearch}.

Lemma try_neighbours_Moved (l : list Panel) (i : nat) (p : Panel)
    (nbs : list (option Panel)) (l' : list Panel) :
  try_neighbours l i p nbs = Moved l' →
  ∃ n pos, Some n ∈ nbs ∧ l !! pos = Some n ∧ (i < pos)%nat
           ∧ l' = py_insert pos p (delete i l).
Proof.
  induction nbs as [|[n|] nbs IH]; simpl; [done| |].
  - destruct (py_index n l) as [pos|] eqn:E; [|done].
    destruct (Nat.ltb_spec i pos).
    + intros [= <-]. exists n, pos. split; [by left|].
      split; [by apply py_index_Some|]. done.
    + intros (m & pos' & ? & ?)%IH. exists m, pos'. split; [by right|done].
  - intros (m & pos' & ? & ?)%IH. exists m, pos'. split; [by right|done].
Qed.

Lemma sweep_from_Moved (cfg : PageCfg) (l : list Panel) (i : nat)
    (rest l' : list Panel) :
  rest = drop i l → sweep_from cfg l i rest = Moved l' →
  ∃ k p n pos,
    l !! k = Some p ∧ Some n ∈ neighbours_before cfg l p
    ∧ l !! pos = Some n ∧ (k < pos)%nat
    ∧ l' = py_insert pos p (delete k l).
Proof.
  revert i. induction rest as [|p rest IH]; intros i Hrest; cbn [sweep_from];
    [done|].
  assert (Hi : l !! i = Some p).
  { replace (l !! i) with (drop i l !! 0%nat)
      by (rewrite lookup_drop; f_equal; lia).
    by rewrite <-Hrest. }
  assert (Hrest' : rest = drop (S i) l).
  { replace (S i) with (i + 1)%nat by lia.
    by rewrite <-drop_drop, <-Hrest. }
  destruct (try_neighbours l i p (neighbours_before cfg l p)) as [|m|] eqn:E;
    [by apply IH| |done].
  intros [= <-]. apply try_neighbours_Moved in E as (n & pos & ? & ? & ? & ?).
  by exists i, p, n, pos.
Qed.

Lemma sweep_Moved (cfg : PageCfg) (l l' : list Panel) :
  sweep cfg l = Moved l' →
  ∃ pre p mid n post,
    Some n ∈ neighbours_before cfg l p
    ∧ l = pre ++ p :: mid ++ n :: post
    ∧ l' = pre ++ mid ++ n :: p :: post.
Proof.
  intros (k & p & n & pos & Hk & Hn & Hpos & Hlt & ->)%(sweep_from_Moved _ _ 0);
    [|done].
  destruct (move_after l k pos p n Hk Hpos Hlt) as (pre & mid & post & ? & ?).
  by exists pre, p, mid, n, post.
Qed.

Lemma sweep_Moved_Permutation (cfg : PageCfg) (l l' : list Panel) :
  sweep cfg l = Moved l' → l' ≡ₚ l.
Proof.
  intros (pre & p & mid & n & post & _ & -> & ->)%sweep_Moved.
  apply Permutation_app_head.
  rewrite (Permutation_middle mid (n :: post) p).
  apply Permutation_app_head. apply perm_swap.
Qed.

(** A run that ends has permuted the panels and ends on a sweep without
    a move. *)
Lemma fix_panels_numbering_Finished (fuel : nat) (cfg : PageCfg)
    (l out : list Panel) :
  fix_panels_numbering fuel cfg l = Finished out →
  out ≡ₚ l ∧ sweep cfg out = NoChange.
Proof.
  revert l. induction fuel as [|fuel IH]; intros l; simpl; [done|].
  destruct (sweep cfg l) as [|l'|] eqn:E; [|intros H|done].
  - by intros [= <-].
  - apply IH in H as [H1 H2]. split; [|done].
    rewrite H1. by eapply sweep_Moved_Permutation.
Qed.
End NumberingProps.

(** *** Termination *)

Lemma weight_app (B : nat) (rank : Panel → nat) (l k : list Panel) :
  weight B rank (l ++ k)
  = (weight B rank l + B ^ length l * weight B rank k)%nat.
Proof.
  induction l as [|p l IH]; simpl; [lia|]. rewrite IH. nia.
Qed.

Lemma weight_bound (B : nat) (rank : Panel → nat) (l : list Panel) :
  Forall (λ p, (rank p < B)%nat) l → (weight B rank l < B ^ length l)%nat.
Proof.
  induction 1 as [|p l Hp _ IH]; simpl; [lia|]. nia.
Qed.

(** Moving a panel to just behind a panel of lower rank raises the
    weight. *)
Lemma weight_move (B : nat) (rank : Panel → nat) (pre mid post : list Panel)
    (p n : Panel) :
  Forall (λ q, (rank q < B)%nat) (pre ++ p :: mid ++ n :: post) →
  (rank n < rank p)%nat →
  (weight B rank (pre ++ p :: mid ++ n :: post)
   < weight B rank (pre ++ mid ++ n :: p :: post))%nat.
Proof.
  intros Hb Hr.
  apply Forall_app in Hb as [_ Hb]. apply Forall_cons in Hb as [Hp Hb].
  apply Forall_app in Hb as [Hmid _].
  pose proof (weight_bound B rank mid Hmid) as Hm.
  rewrite !weight_app. simpl. rewrite !weight_app. simpl.
  set (M := (B ^ length mid)%nat) in *. set (wm := weight B rank mid) in *.
  set (X := weight B rank post). set (P := (B ^ length pre)%nat).
  assert (HP : (0 < P)%nat) by (apply Nat.neq_0_lt_0, Nat.pow_nonzero; lia).
  apply Nat.add_lt_mono_l, Nat.mul_lt_mono_pos_l; [done|].
  assert (H1 : (B * wm + B <= B * M)%nat) by nia.
  assert (H2 : (M * (B * rank n) + M * B <= M * (B * rank p))%nat) by nia.
  nia.
Qed.

Section Termination.
Context `{NS : NeighbourSearch}.

Lemma sweep_Moved_weight (cfg : PageCfg) (rank : Panel → nat) (B : nat)
    (panels l l' : list Panel) :
  before_ranked cfg rank panels → l ≡ₚ panels →
  Forall (λ p, (rank p < B)%nat) l →
  sweep cfg l = Moved l' →
  (weight B rank l < weight B rank l')%nat.
Proof.
  intros Hrk Hl Hb (pre & p & mid & n & post & Hn & -> & ->)%sweep_Moved.
  apply weight_move; [done|]. eapply Hrk; [done| |done].
  apply elem_of_app. right. by left.
Qed.

Lemma fix_panels_numbering_fuel (cfg : PageCfg) (rank : Panel → nat) (B : nat)
    (panels : list Panel) :
  before_ranked cfg rank panels →
  ∀ (d : nat) (l : list Panel),
    l ≡ₚ panels →
    Forall (λ p, (rank p < B)%nat) l →
    (B ^ length l - weight B rank l <= d)%nat →
    settled cfg l (fix_panels_numbering d cfg l).
Proof.
  intros Hrk. induction d as [|d IH]; intros l Hl Hb Hd.
  - pose proof (weight_bound B rank l Hb). lia.
  - simpl. destruct (sweep cfg l) as [|l'|] eqn:E.
    + right. by exists l.
    + pose proof (sweep_Moved_Permutation cfg l l' E) as Hperm.
      pose proof (sweep_Moved_weight cfg rank B panels l l' Hrk Hl Hb E) as Hw.
      assert (Hb' : Forall (λ p, (rank p < B)%nat) l') by by rewrite Hperm.
      pose proof (weight_bound B rank l' Hb').
      assert (Hlen : length l' = length l) by by rewrite Hperm.
      destruct (IH l') as [->|(out & -> & Ho & Hs)].
      * by rewrite Hperm.
      * done.
      * rewrite Hlen. lia.
      * by left.
      * right. exists out. split; [done|]. split; [by rewrite Ho|done].
    + by left.
Qed.

Lemma rank_bound (rank : Panel → nat) (l : list Panel) :
  Forall (λ p, (rank p < S (max_list_with rank l))%nat) l.
Proof.
  induction l as [|p l IH]; simpl; constructor; [lia|].
  eapply Forall_impl; [done|]. simpl. lia.
Qed.

(** C4, amended: when the before-neighbour relation of the page has no
    cycle (each before-neighbour has a lower rank than the panel, for some
    ranking of the panels), the loop of [fix_panels_numbering] ends: some
    number of sweeps ends the run, either on a sweep without a move, with
    the panels permuted, or on the [ValueError] of [index] for a neighbour
    that is not in the list. *)
Theorem fix_panels_numbering_terminates (cfg : PageCfg) (rank : Panel → nat)
    (panels : list Panel) :
  before_ranked cfg rank panels →
  ∃ fuel,
    fix_panels_numbering fuel cfg panels = Raised ValueError
    ∨ ∃ out, fix_panels_numbering fuel cfg panels = Finished out
             ∧ out ≡ₚ panels ∧ sweep cfg out = NoChange.
Proof.
  intros Hrk.
  set (B := S (max_list_with rank panels)).
  exists (B ^ length panels - weight B rank panels)%nat.
  apply (fix_panels_numbering_fuel cfg rank B panels Hrk);
    [done | apply rank_bound | lia].
Qed.

(** With neighbours taken from the page, the run ends without error. *)
Lemma sweep_no_error (cfg : PageCfg) (l : list Panel) :
  neighbours_in_page NS → sweep cfg l ≠ SweepError.
Proof.
  intros Hin. unfold sweep. generalize 0%nat. generalize l at 2.
  intros rest. induction rest as [|p rest IH]; intros i; cbn [sweep_from];
    [done|].
  assert (H : ∀ nbs, (∀ n, Some n ∈ nbs → n ∈ l) →
                     try_neighbours l i p nbs ≠ SweepError).
  { induction nbs as [|[n|] nbs IHn]; intros Hn; simpl; [done| |].
    - destruct (py_index_elem_of n l) as [pos ->]; [apply Hn; by left|].
      destruct (i <? pos)%nat; [done|]. apply IHn. intros m ?. apply Hn.
      by right.
    - apply IHn. intros m ?. apply Hn. by right. }
  specialize (H (neighbours_before cfg l p)).
  destruct (try_neighbours l i p (neighbours_before cfg l p)); [apply IH|done|].
  exfalso. apply H; [|done].
  intros n Hn. unfold neighbours_before in Hn.
  apply elem_of_cons in Hn as [Hn|Hn].
  - symmetry in Hn. by eapply Hin.
  - apply list_elem_of_singleton in Hn. symmetry in Hn.
    destruct (String.eqb _ _); by eapply Hin.
Qed.
End Termination.

(** The search of the specification returns a candidate of the page. *)
Lemma spec_find_neighbour_candidate (l : list Panel) (p n : Panel) (d : Dir) :
  @find_neighbour_panel spec_find_neighbour l p d = Some n →
  n ∈ l ∧ is_neighbour_candidate d p n = true.
Proof.
  unfold find_neighbour_panel, spec_find_neighbour.
  assert (H : ∀ (k : list Panel) best,
    foldl (λ best q,
             if is_neighbour_candidate d p q then
               match best with
               | None => Some q
               | Some m => if better_neighbour d p q m then Some q else Some m
               end
             else best) best k = Some n →
    (n ∈ k ∧ is_neighbour_candidate d p n = true) ∨ best = Some n).
  { induction k as [|q k IH]; intros best; simpl; [by right|].
    intros [[Hn Hc]|Hb]%IH; [left; split; [by right|done]|].
    destruct (is_neighbour_candidate d p q) eqn:E; [|by right].
    destruct best as [m'|]; [|simplify_eq; left; split; [by left|done]].
    destruct (better_neighbour d p q m'); simplify_eq;
      [left; split; [by left|done] | by right]. }
  intros [?|?]%H; done.
Qed.

(** A ranking that decreases along the candidates of the page is a ranking
    of its before-neighbours, for the search of the specification. *)
Lemma spec_before_ranked (cfg : PageCfg) (rank : Panel → nat)
    (panels : list Panel) :
  Forall (λ p, Forall (λ n,
      is_neighbour_candidate DY p n = true
      ∨ is_neighbour_candidate (before_side cfg) p n = true →
      (rank n < rank p)%nat)
    panels) panels →
  @before_ranked spec_find_neighbour cfg rank panels.
Proof.
  intros Hall l p n Hl Hp Hn.
  rewrite Forall_forall in Hall. rewrite Hl in Hp.
  specialize (Hall p Hp). rewrite Forall_forall in Hall.
  unfold neighbours_before in Hn. unfold before_side in Hall.
  apply elem_of_cons in Hn as [Hn|Hn].
  - symmetry in Hn. apply spec_find_neighbour_candidate in Hn as [Hin Hc].
    rewrite Hl in Hin. apply (Hall n Hin). by left.
  - apply list_elem_of_singleton in Hn. symmetry in Hn.
    destruct (String.eqb _ _);
      apply spec_find_neighbour_candidate in Hn as [Hin Hc];
      rewrite Hl in Hin; apply (Hall n Hin); auto.
Qed.

Lemma fix_panels_numbering_terminates_witness :
  ∃ fuel,
    @fix_panels_numbering spec_find_neighbour fuel
       (mkCfg 800 1200 "ltr" (1 # 15)) grid_2x2 = Raised ValueError
    ∨ ∃ out,
        @fix_panels_numbering spec_find_neighbour fuel
           (mkCfg 800 1200 "ltr" (1 # 15)) grid_2x2 = Finished out
        ∧ out ≡ₚ grid_2x2
        ∧ @sweep spec_find_neighbour (mkCfg 800 1200 "ltr" (1 # 15)) out
          = NoChange.
Proof.
  apply (@fix_panels_numbering_terminates spec_find_neighbour
           (mkCfg 800 1200 "ltr" (1 # 15)) grid_rank).
  apply spec_before_ranked.
  repeat (constructor;
          [repeat (constructor;
                   [vm_compute; intros [?|?]; (discriminate || lia)|]);
           constructor|]).
  constructor.
Defined.

Lemma cyclic_search_loops (fuel : nat) :
  @fix_panels_numbering cyclic_search fuel (mkCfg 800 1200 "ltr" (1 # 15))
     [panel_A; panel_B] = OutOfFuel
  ∧ @fix_panels_numbering cyclic_search fuel (mkCfg 800 1200 "ltr" (1 # 15))
       [panel_B; panel_A] = OutOfFuel.
Proof.
  induction fuel as [|fuel [IH1 IH2]]; [done|]. split.
  - change (@fix_panels_numbering cyclic_search fuel
              (mkCfg 800 1200 "ltr" (1 # 15)) [panel_B; panel_A] = OutOfFuel).
    done.
  - change (@fix_panels_numbering cyclic_search fuel
              (mkCfg 800 1200 "ltr" (1 # 15)) [panel_A; panel_B] = OutOfFuel).
    done.
Qed.

(** C4 as stated fails: with the cyclic assignment no number of sweeps
    ends the loop on the page of the two panels. *)
Lemma fix_panels_numbering_cycle_never_ends :
  ¬ ∃ fuel,
      @fix_panels_numbering cyclic_search fuel (mkCfg 800 1200 "ltr" (1 # 15))
         [panel_A; panel_B] ≠ OutOfFuel.
Proof.
  intros [fuel H]. apply H. apply cyclic_search_loops.
Qed.

(** *** A cycle from the geometry *)

Section Orbit.
Context `{NS : NeighbourSearch}.

(** A set of panel orders that every sweep maps into itself with a move
    keeps the loop running. *)
Lemma fix_panels_numbering_orbit (cfg : PageCfg) (orbit : list (list Panel)) :
  Forall (λ l, ∃ l', sweep cfg l = Moved l' ∧ l' ∈ orbit) orbit →
  ∀ fuel l, l ∈ orbit → fix_panels_numbering fuel cfg l = OutOfFuel.
Proof.
  intros Horb. rewrite Forall_forall in Horb.
  induction fuel as [|fuel IH]; intros l Hl; simpl; [done|].
  destruct (Horb l Hl) as (l' & -> & Hl'). by apply IH.
Qed.
End Orbit.

(** The before-neighbours on the page of the four rectangles. *)
Lemma wheel_neighbours :
  let page := [wheel_A; wheel_B; wheel_C; wheel_D] in
  @find_top_panel spec_find_neighbour page wheel_B = Some wheel_A
  ∧ @find_top_panel spec_find_neighbour page wheel_C = Some wheel_B
  ∧ @find_left_panel spec_find_neighbour page wheel_D = Some wheel_C
  ∧ @find_left_panel spec_find_neighbour page wheel_A = Some wheel_D.
Proof. repeat split. Qed.

(** On that page the loop of [fix_panels_numbering] never ends. *)
Lemma wheel_never_ends (fuel : nat) :
  @fix_panels_numbering spec_find_neighbour fuel wheel_cfg
     [wheel_A; wheel_B; wheel_C; wheel_D] = OutOfFuel.
Proof.
  apply (@fix_panels_numbering_orbit spec_find_neighbour wheel_cfg wheel_orbit).
  - repeat (constructor; [eexists; split; [reflexivity|compute_done]|]).
    constructor.
  - by left.
Qed.

(** ** Panel sizes at the end of the pipeline *)

(** The ratio stored by the constructor is positive when the argument is
    omitted, zero or positive. *)
Lemma ratio_or_default_pos (r : option Q) :
  (∀ q, r = Some q → (0 <= q)%Q) → (0 < ratio_or_default r)%Q.
Proof.
  intros Hq. unfold ratio_or_default. destruct r as [q|]; [|done].
  destruct (Qeq_bool q 0) eqn:E; [done|].
  apply Qeq_bool_neq in E. specialize (Hq q eq_refl).
  apply Qle_lteq in Hq as [?|Hq]; [done|]. exfalso. apply E. by symmetry.
Qed.

Lemma not_small_big_enough (cfg : PageCfg) (p : Panel) :
  0 < img_w cfg → 0 < img_h cfg → (0 < small_panel_ratio cfg)%Q →
  ¬ is_small cfg p → big_enough cfg p.
Proof.
  intros HW HH Hr Hs. unfold is_small in Hs.
  apply negb_prop_intro in Hs. rewrite negb_orb, !negb_involutive in Hs.
  apply andb_prop_elim in Hs as [Hw%Is_true_eq_true Hh%Is_true_eq_true].
  apply Qle_bool_iff in Hw, Hh. unfold small_threshold in *.
  assert (Ht : (0 < inject_Z (short_side cfg) * small_panel_ratio cfg)%Q).
  { apply Qmult_lt_0_compat; [|done].
    replace 0%Q with (inject_Z 0) by done. rewrite <-Zlt_Qlt.
    unfold short_side. lia. }
  unfold big_enough. split; [|split; [|done]].
  - rewrite Zlt_Qlt. eapply Qlt_le_trans; done.
  - rewrite Zlt_Qlt. eapply Qlt_le_trans; done.
Qed.

Lemma big_enough_outward (cfg : PageCfg) (p p' : Panel) :
  outward p p' → big_enough cfg p → big_enough cfg p'.
Proof.
  unfold outward, big_enough, w, h. intros (? & ? & ? & ?) (? & ? & Hw & Hh).
  split; [lia|]. split; [lia|]. split.
  - eapply Qle_trans; [exact Hw|]. rewrite <-Zle_Qle. lia.
  - eapply Qle_trans; [exact Hh|]. rewrite <-Zle_Qle. lia.
Qed.

Section PipelineProps.
Context `{NS : NeighbourSearch}.

Lemma expand_panels_big_enough (cfg : PageCfg) (l : list Panel) :
  Forall (big_enough cfg) l → Forall (big_enough cfg) (expand_panels l).
Proof.
  intros Hl.
  assert (H : Forall2 outward l (expand_panels l)) by apply expand_loop_outward.
  induction H as [|p p' l l' Hp _ IH]; [constructor|].
  apply Forall_cons in Hl as [? ?].
  constructor; [by eapply big_enough_outward | auto].
Qed.

(** C5, amended: when the constructor returns, on an image of positive
    size and for a [min_panel_size_ratio] argument that is omitted or not
    negative, the final panel list is the single full-page panel of the
    fallback, or each of its panels has positive width and height, both at
    least [min_panel_size_ratio * min(W, H)]. *)
Theorem run_pipeline_panel_sizes (split_panels sort_panels : list Panel → list Panel)
    (fuel : nat) (cfg : PageCfg) (min_panel_size_ratio : option Q)
    (initial out : list Panel) :
  0 < img_w cfg → 0 < img_h cfg →
  (∀ q, min_panel_size_ratio = Some q → (0 <= q)%Q) →
  small_panel_ratio cfg = ratio_or_default min_panel_size_ratio →
  (∀ l, sort_panels l ≡ₚ l) →
  run_pipeline split_panels sort_panels fuel cfg initial = Finished out →
  out = [from_xywh 0 0 (img_w cfg) (img_h cfg)]
  ∨ Forall (big_enough cfg) out.
Proof.
  intros HW HH Hq Hcfg Hsort. unfold run_pipeline.
  assert (Hr : (0 < small_panel_ratio cfg)%Q)
    by (rewrite Hcfg; by apply ratio_or_default_pos).
  destruct (group_small_panels cfg initial) as [grouped|]; [|done].
  destruct (merge_panels _) as [merged|]; [|done].
  set (kept := exclude_small_panels cfg (deoverlap_panels merged)).
  assert (Hkept : Forall (big_enough cfg) kept).
  { apply Forall_forall. intros p [Hp _]%list_elem_of_filter.
    by apply not_small_big_enough. }
  assert (Hexp : Forall (big_enough cfg) (expand_panels (sort_panels kept))).
  { apply expand_panels_big_enough. by rewrite Hsort. }
  unfold finish_page, fallback_full_page.
  intros [Hperm _]%fix_panels_numbering_Finished.
  case_decide as Hlen.
  - left. apply nil_length_inv in Hlen. rewrite Hlen in Hperm. simpl in Hperm.
    by apply Permutation_singleton_r in Hperm.
  - right. by rewrite Hperm.
Qed.
End PipelineProps.

Lemma run_pipeline_panel_sizes_witness :
  grid_2x2 = [from_xywh 0 0 800 1200]
  ∨ Forall (big_enough (mkCfg 800 1200 "ltr" (1 # 15))) grid_2x2.
Proof.
  apply (@run_pipeline_panel_sizes spec_find_neighbour (λ l, l) (λ l, l) 5
           (mkCfg 800 1200 "ltr" (1 # 15)) None grid_2x2 grid_2x2).
  - reflexivity.
  - reflexivity.
  - intros q Hq. discriminate Hq.
  - reflexivity.
  - intros l. reflexivity.
  - vm_compute. reflexivity.
Defined.

(** C5 as stated fails for a negative [min_panel_size_ratio], which line
    51 stores as it is: no panel is small then.  [deoverlap_panels] cuts
    [wide_panel] back to its own top edge, nothing excludes the flat panel
    that is left, and the constructor returns a list of two panels the
    first of which has height 0. *)
Lemma run_pipeline_negative_ratio :
  small_panel_ratio negative_cfg = (-1 # 2)%Q
  ∧ @run_pipeline spec_find_neighbour (λ l, l) (λ l, l) 5 negative_cfg
      [wide_panel; tall_panel]
    = Finished [mkPanel 0 100 800 100; mkPanel 0 200 800 500]
  ∧ h (mkPanel 0 100 800 100) = 0
  ∧ ¬ ([mkPanel 0 100 800 100; mkPanel 0 200 800 500]
       = [from_xywh 0 0 (img_w negative_cfg) (img_h negative_cfg)]
       ∨ Forall (big_enough negative_cfg)
           [mkPanel 0 100 800 100; mkPanel 0 200 800 500]).
Proof.
  split; [reflexivity|]. split; [vm_compute; reflexivity|].
  split; [reflexivity|].
  intros [?|Hall]; [discriminate|].
  apply Forall_cons in Hall as [(_ & Hh & _) _]. by vm_compute in Hh.
Qed.

(* ================================================================== *)
(** * Further properties of the passes *)

(** ** The checks of the constructor *)

(** X1: the argument checks of the constructor pass exactly for a readable
    image and a numbering argument that is the string "ltr" or "rtl", and
    the stored numbering is then that string; an unreadable image raises
    [NotAnImageException] whatever the numbering argument is. *)
Theorem init_numbering_accepts (img_ok : bool) (n : option string) :
  (img_ok = false → init_numbering img_ok n = inl NotAnImageException)
  ∧ ∀ s, init_numbering img_ok n = inr s
         ↔ img_ok = true ∧ n = Some s
           ∧ (s = "ltr"%string ∨ s = "rtl"%string).
Proof.
  split; [by intros ->|]. intros s. unfold init_numbering.
  destruct img_ok; simpl; [|split; [done|by intros [? _]]].
  destruct n as [t|]; simpl; [|split; [done|by intros (_ & ? & _)]].
  split.
  - destruct (String.eqb_spec t "ltr") as [->|Hl]; simpl.
    { intros [= <-]. auto. }
    destruct (String.eqb_spec t "rtl") as [->|Hr]; simpl; [|done].
    intros [= <-]. auto.
  - intros (_ & [= ->] & [-> | ->]); reflexivity.
Qed.

(** ** [max_gutter] *)

Section MaxGutterProps.
Context `{NS : NeighbourSearch}.

(** X2: [max_gutter] is the larger of the absolute values of the two
    reported gutters, hence never negative, whatever their signs. *)
Theorem max_gutter_abs (panels : list Panel) :
  max_gutter panels
  = Z.max (Z.abs (gutter_x (actual_gutters panels)))
          (Z.abs (gutter_y (actual_gutters panels)))
  ∧ 0 <= max_gutter panels.
Proof.
  unfold max_gutter, actual_gutters, actual_gutters_with, py_max. simpl. lia.
Qed.
End MaxGutterProps.

(** ** [deoverlap_panels] only cuts panels back *)

(** X3: [deoverlap_panels] keeps the number and the positions of the
    panels and only cuts panels back: after the pass the [x] and [y] of a
    panel are at least what they were and its [r] and [b] at most what they
    were. *)
Theorem deoverlap_panels_inward (panels : list Panel) :
  length (deoverlap_panels panels) = length panels
  ∧ ∀ (i : nat) (p p' : Panel),
      panels !! i = Some p → deoverlap_panels panels !! i = Some p' →
      px p <= px p' ∧ py p <= py p' ∧ pr p' <= pr p ∧ pb p' <= pb p.
Proof.
  assert (H : Forall2 (flip outward) panels (deoverlap_panels panels)).
  { rewrite deoverlap_panels_visits.
    generalize (visits (length panels)). intros vs. revert panels.
    induction vs as [|v vs IH]; intros st; simpl;
      [apply Forall2_inward_refl|].
    eapply Forall2_inward_trans; [apply deoverlap_visit_inward | apply IH]. }
  split; [symmetry; by eapply Forall2_length|].
  intros i p p' Hp Hp'. eapply (Forall2_lookup_lr _ _ _ i) in H; [|done..].
  unfold flip, outward in H. lia.
Qed.


(** X4: on a page where no two panels overlap (any two are the same
    rectangle or have an empty overlap), [deoverlap_panels] changes
    nothing. *)
Theorem deoverlap_panels_apart_unchanged (panels : list Panel) :
  (∀ p q, p ∈ panels → q ∈ panels → apart p q) →
  deoverlap_panels panels = panels.
Proof.
  intros H. apply deoverlap_panels_quiet. intros a c.
  apply deoverlap_visit_apart. intros p q Hp Hq.
  apply H; by eapply list_elem_of_lookup_2.
Qed.

Lemma deoverlap_panels_apart_unchanged_witness :
  deoverlap_panels grid_2x2 = grid_2x2.
Proof.
  apply deoverlap_panels_apart_unchanged.
  intros p q Hp Hq. unfold grid_2x2 in Hp, Hq.
  rewrite !elem_of_cons, elem_of_nil in Hp, Hq.
  destruct Hp as [->|[->|[->|[->|[]]]]];
    destruct Hq as [->|[->|[->|[->|[]]]]];
    ((by left) || (right; reflexivity)).
Defined.

(** After the cut, the two panels and all the others are apart. *)
Lemma insert_pair_apart (panels : list Panel) (s t : nat)
    (p_s p_t p_s' p_t' o : Panel) :
  panels !! s = Some p_s → panels !! t = Some p_t →
  p_s ≠ p_t → overlap_panel p_s p_t = Some o →
  only_overlap panels s t →
  outward p_s' p_s → outward p_t' p_t → overlap_panel p_s' p_t' = None →
  ∀ a c p q,
    <[t := p_t']> (<[s := p_s']> panels) !! a = Some p →
    <[t := p_t']> (<[s := p_s']> panels) !! c = Some q → apart p q.
Proof.
  intros Hs Ht Hne Ho Honly Hin_s Hin_t Hnone.
  assert (Hst : s ≠ t) by (intros ->; simplify_eq).
  pose proof (lookup_lt_Some _ _ _ Hs) as Hls.
  pose proof (lookup_lt_Some _ _ _ Ht) as Hlt.
  assert (Hlook : ∀ a, <[t := p_t']> (<[s := p_s']> panels) !! a
            = if decide (a = t) then Some p_t'
              else if decide (a = s) then Some p_s' else panels !! a).
  { intros a. repeat case_decide; subst.
    - rewrite list_lookup_insert_eq; [done|]. by rewrite length_insert.
    - rewrite list_lookup_insert_ne by done.
      by rewrite list_lookup_insert_eq.
    - by rewrite !list_lookup_insert_ne. }
  assert (Hother : ∀ c q, panels !! c = Some q → c ≠ s → c ≠ t →
                          overlap_panel p_s q = None
                          ∧ overlap_panel p_t q = None).
  { intros c q Hc Hcs Hct.
    destruct (Honly s c p_s q Hs Hc) as [<-|H1]; [lia|lia| |].
    - destruct (Honly c t p_s p_t Hc Ht) as [?|H2]; [lia|lia|done|].
      by rewrite Ho in H2.
    - split; [done|].
      destruct (Honly t c p_t q Ht Hc) as [<-|H2]; [lia|lia| |done].
      destruct (Honly s c p_s p_t Hs Hc) as [?|H3]; [lia|lia|done|].
      by rewrite Ho in H3. }
  intros a c p q. rewrite !Hlook.
  destruct (decide (a = c)) as [->|Hac]; [intros; left; congruence|].
  destruct (decide (a = t)) as [->|Hat].
  - intros [= <-]. rewrite decide_False by done.
    destruct (decide (c = s)) as [->|Hcs].
    + intros [= <-]. right. by rewrite overlap_panel_sym.
    + intros Hq. right. apply (overlap_panel_None_inside p_t); [done|].
      exact (proj2 (Hother c q Hq Hcs (not_eq_sym Hac))).
  - destruct (decide (a = s)) as [->|Has].
    + intros [= <-]. destruct (decide (c = t)) as [->|Hct].
      * intros [= <-]. by right.
      * rewrite decide_False by done. intros Hq. right.
        apply (overlap_panel_None_inside p_s); [done|].
        exact (proj1 (Hother c q Hq (not_eq_sym Hac) Hct)).
    + intros Hp. destruct (decide (c = t)) as [->|Hct].
      * intros [= <-]. right. rewrite overlap_panel_sym.
        apply (overlap_panel_None_inside p_t); [done|].
        exact (proj2 (Hother a p Hp Has Hat)).
      * destruct (decide (c = s)) as [->|Hcs].
        -- intros [= <-]. right. rewrite overlap_panel_sym.
           apply (overlap_panel_None_inside p_s); [done|].
           exact (proj1 (Hother a p Hp Has Hat)).
        -- intros Hq. apply (Honly a c); (done || lia).
Qed.

(** X5: when exactly one pair of panels overlaps and the overlap is not a
    square, one pass of [deoverlap_panels] leaves a page on which no two
    panels overlap, and a second pass changes nothing. *)
Theorem deoverlap_panels_clears_overlap (panels : list Panel) (i j : nat)
    (p1 p2 o : Panel) :
  (i < j)%nat → panels !! i = Some p1 → panels !! j = Some p2 →
  p1 ≠ p2 → overlap_panel p1 p2 = Some o → only_overlap panels i j →
  w o ≠ h o →
  (∀ a c p q, deoverlap_panels panels !! a = Some p →
              deoverlap_panels panels !! c = Some q → apart p q)
  ∧ deoverlap_panels (deoverlap_panels panels) = deoverlap_panels panels.
Proof.
  intros Hij Hi Hj Hne Ho Honly Hsq.
  assert (Hap : ∀ a c p q, deoverlap_panels panels !! a = Some p →
              deoverlap_panels panels !! c = Some q → apart p q).
  { rewrite (deoverlap_panels_only_overlap panels i j p1 p2 o) by done.
    pose proof (overlap_panel_edges _ _ _ Ho) as [Hb Hr].
    pose proof (proj1 (overlap_panel_Some _ _ _) Ho) as (Heq & Hx & Hy).
    assert (Ho' : overlap_panel p2 p1 = Some o)
      by by rewrite overlap_panel_sym.
    assert (Hne' : p2 ≠ p1) by done.
    pose proof (only_overlap_sym _ _ _ Honly) as Honly'.
    repeat case_decide; try lia.
    - apply (insert_pair_apart panels i j p1 p2 _ _ o); try done.
      + unfold outward. subst o; simpl in *. lia.
      + unfold outward. subst o; simpl in *. lia.
      + apply overlap_panel_None. subst o; simpl in *. lia.
    - destruct Hb as [?|Hb]; [done|].
      apply (insert_pair_apart panels j i p2 p1 _ _ o); try done.
      + unfold outward. subst o; simpl in *. lia.
      + unfold outward. subst o; simpl in *. lia.
      + apply overlap_panel_None. subst o; simpl in *. lia.
    - apply (insert_pair_apart panels i j p1 p2 _ _ o); try done.
      + unfold outward. subst o; simpl in *. lia.
      + unfold outward. subst o; simpl in *. lia.
      + apply overlap_panel_None. subst o; simpl in *. lia.
    - destruct Hr as [?|Hr]; [done|].
      apply (insert_pair_apart panels j i p2 p1 _ _ o); try done.
      + unfold outward. subst o; simpl in *. lia.
      + unfold outward. subst o; simpl in *. lia.
      + apply overlap_panel_None. subst o; simpl in *. lia. }
  split; [done|].
  apply deoverlap_panels_quiet. intros a c.
  apply deoverlap_visit_apart. intros p q. apply Hap.
Qed.

Lemma deoverlap_panels_clears_overlap_witness :
  let panels := [mkPanel 0 0 100 60; mkPanel 0 50 100 120;
                 mkPanel 200 0 300 100] in
  deoverlap_panels panels
  = [mkPanel 0 0 100 50; mkPanel 0 60 100 120; mkPanel 200 0 300 100]
  ∧ (∀ a c p q, deoverlap_panels panels !! a = Some p →
                deoverlap_panels panels !! c = Some q → apart p q)
  ∧ deoverlap_panels (deoverlap_panels panels) = deoverlap_panels panels.
Proof.
  split; [reflexivity|].
  apply (deoverlap_panels_clears_overlap
           [mkPanel 0 0 100 60; mkPanel 0 50 100 120; mkPanel 200 0 300 100]
           0 1 (mkPanel 0 0 100 60) (mkPanel 0 50 100 120)
           (mkPanel 0 50 100 60)).
  - lia.
  - reflexivity.
  - reflexivity.
  - discriminate.
  - reflexivity.
  - intros a c p q Hp Hq H1 H2.
    destruct a as [|[|[|a]]]; destruct c as [|[|[|c]]]; simplify_eq/=;
      first [ by left | (right; reflexivity) | (exfalso; by apply H1)
            | (exfalso; by apply H2) ].
  - discriminate.
Defined.

(** ** [fix_panels_numbering]: what a run leaves behind *)

Section NumberingMore.
Context `{NS : NeighbourSearch}.

Lemma try_neighbours_NoChange (l : list Panel) (i : nat) (p : Panel)
    (nbs : list (option Panel)) :
  try_neighbours l i p nbs = NoChange →
  ∀ n, Some n ∈ nbs → ∃ pos, py_index n l = Some pos ∧ (pos ≤ i)%nat.
Proof.
  induction nbs as [|[m|] nbs IH]; simpl; intros H n Hn.
  - by apply elem_of_nil in Hn.
  - destruct (py_index m l) as [pos|] eqn:E; [|done].
    destruct (Nat.ltb_spec i pos); [done|].
    apply elem_of_cons in Hn as [[= ->]|Hn]; [|by apply IH].
    exists pos. split; [done|lia].
  - apply elem_of_cons in Hn as [?|Hn]; [done|]. by apply IH.
Qed.

Lemma sweep_from_NoChange (cfg : PageCfg) (l : list Panel) (i : nat)
    (rest : list Panel) :
  rest = drop i l → sweep_from cfg l i rest = NoChange →
  ∀ k p, (i ≤ k)%nat → l !! k = Some p →
         try_neighbours l k p (neighbours_before cfg l p) = NoChange.
Proof.
  revert i. induction rest as [|q rest IH]; intros i Hrest; cbn [sweep_from].
  - intros _ k p Hk Hp. apply lookup_lt_Some in Hp.
    assert (length (drop i l) = 0%nat) by by rewrite <-Hrest.
    rewrite length_drop in *. lia.
  - assert (Hi : l !! i = Some q).
    { replace (l !! i) with (drop i l !! 0%nat)
        by (rewrite lookup_drop; f_equal; lia).
      by rewrite <-Hrest. }
    assert (Hrest' : rest = drop (S i) l).
    { replace (S i) with (i + 1)%nat by lia.
      by rewrite <-drop_drop, <-Hrest. }
    destruct (try_neighbours l i q (neighbours_before cfg l q)) eqn:E;
      [|done|done].
    intros Hsw k p Hk Hp.
    destruct (decide (k = i)) as [->|Hne]; [by simplify_eq|].
    apply (IH (S i) Hrest' Hsw); [lia|done].
Qed.

(** X6: a run of [fix_panels_numbering] that ends leaves a permutation of
    the panels in which every before-neighbour of a panel (its top
    neighbour and its left or right neighbour) stands at the position of
    the panel or before it; running the loop again on that list changes
    nothing. *)
Theorem fix_panels_numbering_ordered (fuel : nat) (cfg : PageCfg)
    (panels out : list Panel) :
  fix_panels_numbering fuel cfg panels = Finished out →
  out ≡ₚ panels
  ∧ (∀ i p n, out !! i = Some p → Some n ∈ neighbours_before cfg out p →
              ∃ pos, (pos ≤ i)%nat ∧ out !! pos = Some n)
  ∧ ∀ fuel', fix_panels_numbering (S fuel') cfg out = Finished out.
Proof.
  intros [Hperm Hsw]%fix_panels_numbering_Finished.
  split; [done|]. split.
  - intros i p n Hp Hn.
    pose proof (sweep_from_NoChange cfg out 0 out eq_refl Hsw i p
                  (Nat.le_0_l i) Hp) as Htry.
    destruct (try_neighbours_NoChange _ _ _ _ Htry n Hn) as (pos & Hpos & ?).
    exists pos. split; [done|]. by apply py_index_Some.
  - intros fuel'. simpl. by rewrite Hsw.
Qed.

(** X7: with a neighbour search that returns panels of the page,
    [fix_panels_numbering] never raises: [list.index] always finds the
    neighbour. *)
Theorem fix_panels_numbering_no_error (fuel : nat) (cfg : PageCfg)
    (panels : list Panel) (e : PageError) :
  neighbours_in_page NS →
  fix_panels_numbering fuel cfg panels ≠ Raised e.
Proof.
  intros Hin. revert panels.
  induction fuel as [|fuel IH]; intros panels; simpl; [done|].
  pose proof (sweep_no_error cfg panels Hin) as Hsw.
  destruct (sweep cfg panels) as [|panels'|]; [done|apply IH|done].
Qed.

Lemma try_neighbours_Moved_index (l : list Panel) (i : nat) (p : Panel)
    (nbs : list (option Panel)) (l' : list Panel) :
  try_neighbours l i p nbs = Moved l' →
  ∃ n pos, Some n ∈ nbs ∧ py_index n l = Some pos ∧ (i < pos)%nat
           ∧ l' = py_insert pos p (delete i l).
Proof.
  induction nbs as [|[n|] nbs IH]; simpl; [done| |].
  - destruct (py_index n l) as [pos|] eqn:E; [|done].
    destruct (Nat.ltb_spec i pos).
    + intros [= <-]. exists n, pos. split; [by left|done].
    + intros (m & pos' & ? & ?)%IH. exists m, pos'. split; [by right|done].
  - intros (m & pos' & ? & ?)%IH. exists m, pos'. split; [by right|done].
Qed.

Lemma sweep_from_first_move (cfg : PageCfg) (l : list Panel) (i : nat)
    (rest l' : list Panel) :
  rest = drop i l → sweep_from cfg l i rest = Moved l' →
  ∃ k p n pos,
    (i ≤ k)%nat ∧ l !! k = Some p ∧ Some n ∈ neighbours_before cfg l p
    ∧ py_index n l = Some pos ∧ (k < pos)%nat
    ∧ l' = py_insert pos p (delete k l)
    ∧ ∀ k' q, (i ≤ k' < k)%nat → l !! k' = Some q →
              try_neighbours l k' q (neighbours_before cfg l q) = NoChange.
Proof.
  revert i. induction rest as [|q rest IH]; intros i Hrest; cbn [sweep_from];
    [done|].
  assert (Hi : l !! i = Some q).
  { replace (l !! i) with (drop i l !! 0%nat)
      by (rewrite lookup_drop; f_equal; lia).
    by rewrite <-Hrest. }
  assert (Hrest' : rest = drop (S i) l).
  { replace (S i) with (i + 1)%nat by lia.
    by rewrite <-drop_drop, <-Hrest. }
  destruct (try_neighbours l i q (neighbours_before cfg l q)) as [|m|] eqn:E;
    [| |done].
  - intros Hsw. apply (IH (S i) Hrest') in Hsw
      as (k & p & n & pos & Hk & Hp & Hn & Hpos & Hlt & -> & Hpre).
    exists k, p, n, pos. repeat split; auto; [lia|].
    intros k' q' Hk' Hq'. destruct (decide (k' = i)) as [->|?].
    + by simplify_eq.
    + apply Hpre; [lia|done].
  - intros [= <-].
    apply try_neighbours_Moved_index in E as (n & pos & ? & ? & ? & ?).
    exists i, q, n, pos. repeat split; auto. intros; lia.
Qed.

(** X8: a sweep that moves takes the first panel of the list that has a
    before-neighbour [n] further down the list, and puts it right behind
    the first occurrence of [n]; the panels before it, which all have
    their before-neighbours at or before them, and all other panels keep
    their order. *)
Theorem sweep_moves_first_late_panel (cfg : PageCfg) (l l' : list Panel) :
  sweep cfg l = Moved l' →
  ∃ pre p mid n post,
    l = pre ++ p :: mid ++ n :: post
    ∧ l' = pre ++ mid ++ n :: p :: post
    ∧ Some n ∈ neighbours_before cfg l p
    ∧ (n ∉ pre ++ p :: mid)
    ∧ ∀ i q m, pre !! i = Some q → Some m ∈ neighbours_before cfg l q →
               ∃ pos, (pos ≤ i)%nat ∧ l !! pos = Some m.
Proof.
  intros Hsw. apply (sweep_from_first_move cfg l 0 l l' eq_refl) in Hsw
    as (k & p & n & pos & _ & Hk & Hn & Hidx & Hlt & -> & Hpre).
  pose proof (py_index_Some _ _ _ Hidx) as Hpos.
  pose proof (take_drop_middle l k p Hk) as Hl.
  assert (Hpos' : drop (S k) l !! (pos - S k)%nat = Some n).
  { rewrite lookup_drop. by replace (S k + (pos - S k))%nat with pos by lia. }
  pose proof (take_drop_middle _ _ _ Hpos') as Hd.
  set (pre := take k l) in *.
  set (mid := take (pos - S k) (drop (S k) l)) in *.
  set (post := drop (S (pos - S k)) (drop (S k) l)) in *.
  assert (Hlen_pre : length pre = k).
  { unfold pre. rewrite length_take. apply lookup_lt_Some in Hk. lia. }
  assert (Hlen_mid : length mid = (pos - S k)%nat).
  { unfold mid. rewrite length_take, length_drop.
    apply lookup_lt_Some in Hpos. lia. }
  assert (Hl2 : l = pre ++ p :: mid ++ n :: post) by by rewrite Hd.
  exists pre, p, mid, n, post. split; [done|]. split; [|split; [done|split]].
  - rewrite delete_take_drop. fold pre. rewrite <-Hd. unfold py_insert.
    replace pos with (length (pre ++ mid ++ [n])) at 1 2
      by (rewrite !length_app; simpl; lia).
    replace (pre ++ mid ++ n :: post) with ((pre ++ mid ++ [n]) ++ post)
      by (by rewrite <-!app_assoc).
    rewrite take_app_length, drop_app_length.
    by rewrite <-!app_assoc.
  - intros Hin. apply list_elem_of_lookup in Hin as [j Hj].
    pose proof (lookup_lt_Some _ _ _ Hj) as Hjlt.
    rewrite length_app in Hjlt. simpl in Hjlt.
    assert (Hlj : l !! j = Some n).
    { rewrite Hl2.
      replace (pre ++ p :: mid ++ n :: post)
        with ((pre ++ p :: mid) ++ n :: post)
        by (by rewrite <-app_assoc).
      by apply lookup_app_l_Some. }
    unfold py_index in Hidx.
    destruct (list_find (λ q, q = n) l) as [[i' q']|] eqn:E; [|done].
    simpl in Hidx. injection Hidx as ->.
    apply list_find_Some in E as (_ & _ & Hfirst).
    apply (Hfirst j n Hlj); [lia|done].
  - intros i q m Hq Hm.
    pose proof (lookup_lt_Some _ _ _ Hq) as Hilt.
    assert (Hlq : l !! i = Some q).
    { rewrite Hl2. by apply lookup_app_l_Some. }
    assert (Htry : try_neighbours l i q (neighbours_before cfg l q) = NoChange)
      by (apply Hpre; [lia|done]).
    destruct (try_neighbours_NoChange _ _ _ _ Htry m Hm) as (pos' & Hp' & ?).
    exists pos'. split; [done|]. by apply py_index_Some.
Qed.
End NumberingMore.

Lemma fix_panels_numbering_ordered_witness :
  grid_2x2 ≡ₚ grid_2x2_reversed
  ∧ (∀ i p n, grid_2x2 !! i = Some p →
              Some n ∈ @neighbours_before spec_find_neighbour
                         (mkCfg 800 1200 "ltr" (1 # 15)) grid_2x2 p →
              ∃ pos, (pos ≤ i)%nat ∧ grid_2x2 !! pos = Some n)
  ∧ ∀ fuel', @fix_panels_numbering spec_find_neighbour (S fuel')
               (mkCfg 800 1200 "ltr" (1 # 15)) grid_2x2
             = Finished grid_2x2.
Proof.
  apply (@fix_panels_numbering_ordered spec_find_neighbour 10
           (mkCfg 800 1200 "ltr" (1 # 15)) grid_2x2_reversed grid_2x2).
  vm_compute. reflexivity.
Defined.

Lemma fix_panels_numbering_no_error_witness :
  @fix_panels_numbering spec_find_neighbour 10
     (mkCfg 800 1200 "ltr" (1 # 15)) grid_2x2_reversed ≠ Raised ValueError.
Proof.
  apply (@fix_panels_numbering_no_error spec_find_neighbour).
  apply spec_find_neighbour_in_page.
Defined.

Lemma sweep_moves_first_late_panel_witness :
  ∃ pre p mid n post,
    grid_2x2_reversed = pre ++ p :: mid ++ n :: post
    ∧ [mkPanel 20 620 380 1180; mkPanel 420 20 780 580;
       mkPanel 420 620 780 1180; mkPanel 20 20 380 580]
      = pre ++ mid ++ n :: p :: post
    ∧ Some n ∈ @neighbours_before spec_find_neighbour
                 (mkCfg 800 1200 "ltr" (1 # 15)) grid_2x2_reversed p
    ∧ (n ∉ pre ++ p :: mid)
    ∧ ∀ i q m, pre !! i = Some q →
               Some m ∈ @neighbours_before spec_find_neighbour
                          (mkCfg 800 1200 "ltr" (1 # 15))
                          grid_2x2_reversed q →
               ∃ pos, (pos ≤ i)%nat ∧ grid_2x2_reversed !! pos = Some m.
Proof.
  apply (@sweep_moves_first_late_panel spec_find_neighbour
           (mkCfg 800 1200 "ltr" (1 # 15)) grid_2x2_reversed).
  vm_compute. reflexivity.
Defined.

(** ** [list.remove] on a list of values *)

Lemma py_remove_elem_of (v : Panel) (l : list Panel) :
  v ∈ l →
  ∃ l', py_remove v l = Some l' ∧ l ≡ₚ v :: l' ∧ sublist l' l.
Proof.
  induction l as [|q l IH]; intros Hv; [by apply elem_of_nil in Hv|].
  simpl. destruct (decide (q = v)) as [->|Hne].
  - exists l. split; [done|]. split; [done|]. by apply sublist_cons.
  - apply elem_of_cons in Hv as [?|Hv]; [done|].
    destruct (IH Hv) as (l' & -> & Hperm & Hsub).
    exists (q :: l'). split; [done|]. split.
    + rewrite Hperm. apply perm_swap.
    + by apply sublist_skip.
Qed.

Lemma remove_each_elem_of (vs l : list Panel) :
  NoDup vs → (∀ v, v ∈ vs → v ∈ l) →
  ∃ out, remove_each vs l = Some out ∧ l ≡ₚ vs ++ out ∧ sublist out l.
Proof.
  unfold remove_each. revert l.
  induction vs as [|v vs IH]; intros l Hnd Hsub; simpl.
  - by exists l.
  - apply NoDup_cons in Hnd as [Hv Hnd].
    destruct (py_remove_elem_of v l) as (l1 & -> & Hperm & Hs1);
      [apply Hsub; by left|].
    destruct (IH l1 Hnd) as (out & -> & Hperm' & Hs2).
    + intros u Hu. assert (Hul : u ∈ l) by (apply Hsub; by right).
      rewrite Hperm in Hul. apply elem_of_cons in Hul as [->|?]; done.
    + exists out. split; [done|]. split.
      * rewrite Hperm, Hperm'. done.
      * by etrans.
Qed.

(** ** [merge_panels] on any list *)

Lemma contains_refl (p : Panel) : contains p p = true.
Proof. apply contains_spec. lia. Qed.

Lemma to_remove_positions (panels : list Panel) (v : Panel) :
  v ∈ to_remove panels →
  ∃ i j q, i ≠ j ∧ panels !! i = Some q ∧ panels !! j = Some v
           ∧ contains q v = true.
Proof.
  induction panels as [|p1 rest IH]; simpl; intros Hv.
  - by apply elem_of_nil in Hv.
  - apply elem_of_app in Hv as [Hv|Hv].
    + apply elem_of_removed_by in Hv
        as (p2 & Hp2 & [[E ->]|(E1 & E2 & ->)]);
        apply list_elem_of_lookup in Hp2 as [j Hj].
      * exists 0%nat, (S j), p1. done.
      * exists (S j), 0%nat, p2. done.
    + destruct (IH Hv) as (i & j & q & Hij & Hi & Hj & Hc).
      exists (S i), (S j), q. split; [lia|done].
Qed.

Lemma duplicate_to_remove (panels : list Panel) (i j : nat) (v : Panel) :
  (i < j)%nat → panels !! i = Some v → panels !! j = Some v →
  v ∈ to_remove panels.
Proof.
  revert i j. induction panels as [|p1 rest IH]; intros i j Hij Hi Hj;
    [done|].
  simpl. apply elem_of_app. destruct i as [|i]; simplify_eq/=.
  - left. destruct j as [|j]; [lia|]. simpl in Hj.
    apply elem_of_removed_by. exists v. split.
    + by eapply list_elem_of_lookup_2.
    + left. split; [apply contains_refl | done].
  - right. destruct j as [|j]; [lia|]. simpl in Hj.
    apply (IH i j); [lia|done|done].
Qed.

(** X9: [merge_panels] never raises, on any list: it returns the list
    without one occurrence of each rectangle that lies within the panel at
    another position of the list (the same rectangle twice counts), the
    other panels in their order. *)
Theorem merge_panels_removes_once (panels : list Panel) :
  ∃ out removed,
    merge_panels panels = Some out
    ∧ sublist out panels
    ∧ NoDup removed ∧ panels ≡ₚ removed ++ out
    ∧ ∀ v, v ∈ removed
           ↔ ∃ i j q, i ≠ j ∧ panels !! i = Some q ∧ panels !! j = Some v
                      ∧ contains q v = true.
Proof.
  unfold merge_panels. rewrite merge_loop_to_remove. simpl.
  destruct (remove_each_elem_of (remove_dups (to_remove panels)) panels)
    as (out & Hout & Hperm & Hsub).
  { apply NoDup_remove_dups. }
  { intros v Hv. rewrite elem_of_remove_dups in Hv.
    destruct (to_remove_positions panels v Hv) as (i & j & q & _ & _ & Hj & _).
    by eapply list_elem_of_lookup_2. }
  exists out, (remove_dups (to_remove panels)).
  split; [done|]. split; [done|]. split; [apply NoDup_remove_dups|].
  split; [done|]. intros v. rewrite elem_of_remove_dups. split.
  - apply to_remove_positions.
  - intros (i & j & q & Hij & Hi & Hj & Hc).
    destruct (decide (q = v)) as [->|Hne].
    + destruct (decide (i < j)%nat).
      * by apply (duplicate_to_remove panels i j).
      * apply (duplicate_to_remove panels j i); [lia|done|done].
    + apply (contained_to_remove panels q v); try done;
        by eapply list_elem_of_lookup_2.
Qed.

(** X10: on a list of pairwise different rectangles a second pass of
    [merge_panels] changes nothing. *)
Theorem merge_panels_idempotent (panels out : list Panel) :
  NoDup panels → merge_panels panels = Some out →
  merge_panels out = Some out.
Proof.
  intros Hnd. unfold merge_panels at 1. rewrite merge_loop_to_remove. simpl.
  rewrite remove_each_NoDup; [|done| |apply NoDup_remove_dups].
  2:{ intros v Hv. rewrite elem_of_remove_dups in Hv.
      by destruct (to_remove_contained panels v Hnd Hv). }
  intros [= <-].
  set (out := filter (λ q, q ∉ remove_dups (to_remove panels)) panels).
  assert (Hnd' : NoDup out) by by apply NoDup_filter.
  assert (Hnil : to_remove out = []).
  { apply elem_of_nil_inv. intros v Hv.
    destruct (to_remove_contained out v Hnd' Hv) as (Hvo & q & Hq & Hne & Hc).
    apply list_elem_of_filter in Hvo as [Hvr Hvp].
    apply list_elem_of_filter in Hq as [_ Hqp].
    apply Hvr. rewrite elem_of_remove_dups.
    by apply (contained_to_remove panels q v). }
  unfold merge_panels. rewrite merge_loop_to_remove, Hnil. done.
Qed.

Lemma merge_panels_idempotent_witness :
  merge_panels [mkPanel 0 0 100 100; mkPanel 200 0 300 100]
  = Some [mkPanel 0 0 100 100; mkPanel 200 0 300 100].
Proof.
  apply (merge_panels_idempotent
           [mkPanel 0 0 100 100; mkPanel 10 10 50 50; mkPanel 200 0 300 100]).
  - by compute_done.
  - reflexivity.
Defined.

(** ** [group_small_panels] on any list *)

Section DictKeys.
Context {K V : Type} `{EqDecision K}.

Lemma dict_get_None (d : list (K * V)) (k : K) :
  dict_get d k = None ↔ k ∉ d.*1.
Proof.
  induction d as [|[k' v'] d IH].
  - split; [intros _; apply not_elem_of_nil | done].
  - cbn [dict_get fmap list_fmap fst]. rewrite not_elem_of_cons.
    destruct (decide (k' = k)) as [->|Hne].
    + split; [done|]. by intros [? _].
    + rewrite IH. split; [intros ?; split; [congruence|done] | by intros [_ ?]].
Qed.

Lemma dict_set_keys_old (d : list (K * V)) (k : K) (v : V) :
  k ∈ d.*1 → (dict_set d k v).*1 = d.*1.
Proof.
  induction d as [|[k' v'] d IH]; intros Hk.
  - by apply elem_of_nil in Hk.
  - cbn [dict_set]. destruct (decide (k' = k)) as [->|Hne]; [done|].
    cbn [fmap list_fmap fst] in *. apply elem_of_cons in Hk as [?|Hk];
      [congruence|].
    f_equal. by apply IH.
Qed.

Lemma dict_set_keys_new (d : list (K * V)) (k : K) (v : V) :
  k ∉ d.*1 → (dict_set d k v).*1 = d.*1 ++ [k].
Proof.
  induction d as [|[k' v'] d IH]; intros Hk; [done|].
  cbn [dict_set fmap list_fmap fst] in *.
  apply not_elem_of_cons in Hk as [Hne Hk].
  rewrite decide_False by congruence. cbn [fmap list_fmap fst].
  simpl. f_equal. by apply IH.
Qed.

Lemma dict_get_Some_key (d : list (K * V)) (k : K) (v : V) :
  dict_get d k = Some v → k ∈ d.*1.
Proof.
  intros Hg. destruct (decide (k ∈ d.*1)) as [?|Hn]; [done|].
  apply dict_get_None in Hn. congruence.
Qed.
End DictKeys.

Lemma relabel_keys (p1 p2 : Panel) (groups : list (Panel * nat)) :
  (relabel p1 p2 groups).*1 = groups.*1.
Proof.
  unfold relabel. generalize (groups.*1) at 1. intros ks. revert groups.
  induction ks as [|k ks IH]; intros cur; simpl; [done|].
  rewrite IH. unfold relabel_entry.
  destruct (dict_get cur k) as [id|] eqn:Ek; [|done].
  destruct (dict_get cur p2); [|done]. destruct (dict_get cur p1); [|done].
  case_decide; [|done].
  apply dict_set_keys_old. by eapply dict_get_Some_key.
Qed.

Lemma group_pair_keys (cfg : PageCfg) (Sm : list Panel)
    (st : list (Panel * nat) * nat) (p1 p2 : Panel) :
  NoDup st.1.*1 → (∀ k, k ∈ st.1.*1 → k ∈ Sm) → p1 ∈ Sm → p2 ∈ Sm →
  NoDup (group_pair cfg st p1 p2).1.*1
  ∧ ∀ k, k ∈ (group_pair cfg st p1 p2).1.*1 → k ∈ Sm.
Proof.
  destruct st as [groups gid]. simpl. intros Hnd Hsub H1 H2.
  case_decide as Hne; [done|]. destruct (negb _); [done|].
  destruct (dict_get groups p1) as [g1|] eqn:E1;
    destruct (dict_get groups p2) as [g2|] eqn:E2; simpl.
  - case_decide; simpl; [|done]. by rewrite relabel_keys.
  - apply dict_get_None in E2. rewrite dict_set_keys_new by done. split.
    + apply NoDup_app. split; [done|]. split; [|apply NoDup_singleton].
      intros k Hk ->%list_elem_of_singleton. done.
    + intros k [? | ->%list_elem_of_singleton]%elem_of_app; auto.
  - apply dict_get_None in E1. rewrite dict_set_keys_new by done. split.
    + apply NoDup_app. split; [done|]. split; [|apply NoDup_singleton].
      intros k Hk ->%list_elem_of_singleton. done.
    + intros k [? | ->%list_elem_of_singleton]%elem_of_app; auto.
  - apply dict_get_None in E1, E2.
    assert (E2' : p2 ∉ (dict_set groups p1 (S gid)).*1).
    { rewrite dict_set_keys_new by done.
      rewrite elem_of_app, list_elem_of_singleton. intros [?|?]; done. }
    rewrite (dict_set_keys_new _ p2) by done.
    rewrite dict_set_keys_new by done. split.
    + apply NoDup_app. split; [|split; [|apply NoDup_singleton]].
      * apply NoDup_app. split; [done|]. split; [|apply NoDup_singleton].
        intros k Hk ->%list_elem_of_singleton. done.
      * intros k Hk ->%list_elem_of_singleton.
        apply elem_of_app in Hk as [?|?%list_elem_of_singleton]; done.
    + intros k [[? | ->%list_elem_of_singleton]%elem_of_app
               | ->%list_elem_of_singleton]%elem_of_app; auto.
Qed.

Lemma group_loop_keys (cfg : PageCfg) (Sm small : list Panel)
    (st : list (Panel * nat) * nat) :
  (∀ p, p ∈ small → p ∈ Sm) →
  NoDup st.1.*1 → (∀ k, k ∈ st.1.*1 → k ∈ Sm) →
  NoDup (group_loop cfg small st).1.*1
  ∧ ∀ k, k ∈ (group_loop cfg small st).1.*1 → k ∈ Sm.
Proof.
  revert st. induction small as [|p1 rest IH]; intros st Hsm Hnd Hsub;
    simpl; [done|].
  assert (Hinner : ∀ (l : list Panel) st0,
            (∀ p, p ∈ l → p ∈ Sm) →
            NoDup st0.1.*1 → (∀ k, k ∈ st0.1.*1 → k ∈ Sm) →
            NoDup (foldl (λ s p2, group_pair cfg s p1 p2) st0 l).1.*1
            ∧ ∀ k, k ∈ (foldl (λ s p2, group_pair cfg s p1 p2) st0 l).1.*1
                   → k ∈ Sm).
  { induction l as [|p2 l IHl]; intros st0 Hl Hnd0 Hsub0; simpl; [done|].
    destruct (group_pair_keys cfg Sm st0 p1 p2) as [? ?]; try done.
    - apply Hsm. by left.
    - apply Hl. by left.
    - apply IHl; try done. intros p ?. apply Hl. by right. }
  destruct (Hinner rest st) as [? ?]; try done.
  { intros p ?. apply Hsm. by right. }
  apply IH; try done. intros p ?. apply Hsm. by right.
Qed.

Lemma grouped_step (grouped : list (nat * list Panel)) (v : nat) (k : Panel) :
  concat (dict_set grouped v (default [] (dict_get grouped v) ++ [k])).*2
    ≡ₚ k :: concat grouped.*2
  ∧ (Forall (λ grp, grp ≠ []) grouped.*2 →
     Forall (λ grp, grp ≠ [])
       (dict_set grouped v (default [] (dict_get grouped v) ++ [k])).*2).
Proof.
  induction grouped as [|[v' L] grouped [IH1 IH2]].
  - simpl. split; [done|]. intros _. by repeat constructor.
  - cbn [dict_set dict_get]. destruct (decide (v' = v)) as [->|Hne].
    + cbn [fmap list_fmap snd concat default]. simpl. split.
      * rewrite <-app_assoc. simpl.
        by rewrite <-Permutation_middle.
      * intros [? ?]%Forall_cons. constructor; [|done].
        by destruct L.
    + cbn [fmap list_fmap snd concat] in *. simpl. split.
      * rewrite IH1. by rewrite Permutation_middle.
      * intros [? ?]%Forall_cons. constructor; auto.
Qed.

Lemma grouped_of_members (groups : list (Panel * nat)) :
  concat (grouped_of groups).*2 ≡ₚ groups.*1
  ∧ Forall (λ grp, grp ≠ []) (grouped_of groups).*2.
Proof.
  unfold grouped_of.
  assert (H : ∀ (l : list (Panel * nat)) acc,
            Forall (λ grp, grp ≠ []) acc.*2 →
            concat (foldl (λ grouped '(k, v),
                      dict_set grouped v
                        (default [] (dict_get grouped v) ++ [k])) acc l).*2
              ≡ₚ concat acc.*2 ++ l.*1
            ∧ Forall (λ grp, grp ≠ [])
                (foldl (λ grouped '(k, v),
                   dict_set grouped v
                     (default [] (dict_get grouped v) ++ [k])) acc l).*2).
  { induction l as [|[k v] l IH]; intros acc Hacc; simpl.
    - by rewrite app_nil_r.
    - destruct (grouped_step acc v k) as [Hp Hf].
      destruct (IH _ (Hf Hacc)) as [IH1 IH2]. split; [|done].
      rewrite IH1, Hp. by rewrite <-Permutation_middle. }
  destruct (H groups []) as [H1 H2]; [constructor|]. done.
Qed.

Lemma remove_each_cons (v : Panel) (vs l : list Panel) :
  remove_each (v :: vs) l = py_remove v l ≫= remove_each vs.
Proof.
  unfold remove_each. simpl. destruct (py_remove v l) as [l'|]; [done|].
  simpl. induction vs as [|u vs IH]; [done|]. simpl. apply IH.
Qed.

Lemma py_remove_filter (P : Panel → Prop) `{∀ p, Decision (P p)}
    (v : Panel) (l l' : list Panel) :
  py_remove v l = Some l' → ¬ P v → filter P l' = filter P l.
Proof.
  revert l'. induction l as [|q l IH]; intros l'; simpl; [done|].
  destruct (decide (q = v)) as [->|Hne].
  - intros [= ->] Hv. by rewrite filter_cons_False.
  - destruct (py_remove v l) as [l1|]; [|done]. simpl.
    intros [= <-] Hv. rewrite !filter_cons, (IH l1) by done. done.
Qed.

Lemma py_remove_app (v : Panel) (l l' rest : list Panel) :
  py_remove v l = Some l' → py_remove v (l ++ rest) = Some (l' ++ rest).
Proof.
  revert l'. induction l as [|q l IH]; intros l'; simpl; [done|].
  destruct (decide (q = v)); [by intros [= ->]|].
  destruct (py_remove v l) as [l1|]; [|done]. simpl.
  intros [= <-]. by rewrite (IH l1).
Qed.

Lemma remove_each_filter (P : Panel → Prop) `{∀ p, Decision (P p)}
    (vs l out : list Panel) :
  remove_each vs l = Some out → (∀ v, v ∈ vs → ¬ P v) →
  filter P out = filter P l.
Proof.
  revert l. induction vs as [|v vs IH]; intros l.
  - by intros [= ->].
  - rewrite remove_each_cons.
    destruct (py_remove v l) as [l1|] eqn:E; [|done]. simpl.
    intros Hout Hvs. rewrite (IH l1 Hout).
    + apply (py_remove_filter P v l l1 E). apply Hvs. by left.
    + intros u ?. apply Hvs. by right.
Qed.

Lemma remove_each_app (vs l out rest : list Panel) :
  remove_each vs l = Some out →
  remove_each vs (l ++ rest) = Some (out ++ rest).
Proof.
  revert l. induction vs as [|v vs IH]; intros l.
  - by intros [= ->].
  - rewrite !remove_each_cons.
    destruct (py_remove v l) as [l1|] eqn:E; [|done]. simpl.
    rewrite (py_remove_app v l l1 rest E). simpl. apply IH.
Qed.

Lemma py_min_by_spec (k : Panel → Z) (l : list Panel) (m : Panel) :
  py_min_by k l = Some m → m ∈ l ∧ ∀ v, v ∈ l → k m <= k v.
Proof.
  destruct l as [|a l]; [done|]. simpl. intros [= <-].
  assert (H : ∀ (l : list Panel) a,
            foldl (λ m q, if k q <? k m then q else m) a l ∈ a :: l
            ∧ k (foldl (λ m q, if k q <? k m then q else m) a l) <= k a
            ∧ ∀ v, v ∈ l →
                k (foldl (λ m q, if k q <? k m then q else m) a l) <= k v).
  { clear. induction l as [|c l IH]; intros a; simpl.
    - split; [by left|]. split; [lia|]. intros v Hv.
      by apply elem_of_nil in Hv.
    - destruct (IH (if k c <? k a then c else a)) as (H1 & H2 & H3).
      destruct (Z.ltb_spec (k c) (k a)).
      + split; [|split; [lia|]].
        * apply elem_of_cons in H1 as [->|?]; [right; by left|].
          right. by right.
        * intros v [->|?]%elem_of_cons; auto.
      + split; [|split; [lia|]].
        * apply elem_of_cons in H1 as [->|?]; [by left|]. right. by right.
        * intros v [->|?]%elem_of_cons; [lia|auto]. }
  destruct (H l a) as (H1 & H2 & H3). split; [done|].
  intros v [->|?]%elem_of_cons; auto.
Qed.

Lemma py_max_by_spec (k : Panel → Z) (l : list Panel) (m : Panel) :
  py_max_by k l = Some m → m ∈ l ∧ ∀ v, v ∈ l → k v <= k m.
Proof.
  destruct l as [|a l]; [done|]. simpl. intros [= <-].
  assert (H : ∀ (l : list Panel) a,
            foldl (λ m q, if k m <? k q then q else m) a l ∈ a :: l
            ∧ k a <= k (foldl (λ m q, if k m <? k q then q else m) a l)
            ∧ ∀ v, v ∈ l →
                k v <= k (foldl (λ m q, if k m <? k q then q else m) a l)).
  { clear. induction l as [|c l IH]; intros a; simpl.
    - split; [by left|]. split; [lia|]. intros v Hv.
      by apply elem_of_nil in Hv.
    - destruct (IH (if k a <? k c then c else a)) as (H1 & H2 & H3).
      destruct (Z.ltb_spec (k a) (k c)).
      + split; [|split; [lia|]].
        * apply elem_of_cons in H1 as [->|?]; [right; by left|].
          right. by right.
        * intros v [->|?]%elem_of_cons; auto.
      + split; [|split; [lia|]].
        * apply elem_of_cons in H1 as [->|?]; [by left|]. right. by right.
        * intros v [->|?]%elem_of_cons; [lia|auto]. }
  destruct (H l a) as (H1 & H2 & H3). split; [done|].
  intros v [->|?]%elem_of_cons; auto.
Qed.

(** One group replaced: its members leave the kept panels, their bounding
    box joins the appended ones. *)
Lemma replace_group_shape (cfg : PageCfg) (kept bigs grp : list Panel) :
  grp ≠ [] → NoDup grp → (∀ v, v ∈ grp → v ∈ kept) →
  (∀ v, v ∈ grp → is_small cfg v) →
  ∃ kept' big,
    replace_group (kept ++ bigs) grp = Some (kept' ++ bigs ++ [big])
    ∧ kept ≡ₚ grp ++ kept' ∧ sublist kept' kept
    ∧ filter (λ p, ¬ is_small cfg p) kept'
      = filter (λ p, ¬ is_small cfg p) kept
    ∧ ∀ v, v ∈ grp → outward v big.
Proof.
  intros Hne Hnd Hsub Hsmall. unfold replace_group.
  destruct (py_min_by px grp) as [mx|] eqn:Ex; [|by destruct grp].
  destruct (py_min_by py grp) as [my|] eqn:Ey; [|by destruct grp].
  destruct (py_max_by pr grp) as [mr|] eqn:Er; [|by destruct grp].
  destruct (py_max_by pb grp) as [mb|] eqn:Eb; [|by destruct grp].
  simpl.
  destruct (remove_each_elem_of grp kept Hnd Hsub) as (kept' & Hk & Hperm & Hs).
  exists kept', (from_xyrb (px mx) (py my) (pr mr) (pb mb)).
  split; [|split; [done|split; [done|split]]].
  - change (remove_each grp
              ((kept ++ bigs) ++ [from_xyrb (px mx) (py my) (pr mr) (pb mb)])
            = Some (kept' ++ bigs
                    ++ [from_xyrb (px mx) (py my) (pr mr) (pb mb)])).
    rewrite <-!app_assoc. by apply remove_each_app.
  - apply (remove_each_filter _ grp kept kept' Hk).
    intros v Hv Hns. apply Hns. by apply Hsmall.
  - intros v Hv. unfold outward, from_xyrb. simpl.
    apply py_min_by_spec in Ex as [_ Hx], Ey as [_ Hy].
    apply py_max_by_spec in Er as [_ Hr], Eb as [_ Hb].
    specialize (Hx v Hv). specialize (Hy v Hv). specialize (Hr v Hv).
    specialize (Hb v Hv). lia.
Qed.

(** The groups replaced one after the other. *)
Lemma replace_groups_shape (cfg : PageCfg) (gs : list (list Panel))
    (kept bigs : list Panel) :
  NoDup (concat gs) → Forall (λ grp, grp ≠ []) gs →
  (∀ v, v ∈ concat gs → v ∈ kept ∧ is_small cfg v) →
  ∃ kept' bigs',
    foldl (λ acc grp, acc ≫= λ ps, replace_group ps grp)
          (Some (kept ++ bigs)) gs = Some (kept' ++ bigs')
    ∧ sublist kept' kept
    ∧ filter (λ p, ¬ is_small cfg p) kept'
      = filter (λ p, ¬ is_small cfg p) kept
    ∧ (length (kept' ++ bigs') ≤ length (kept ++ bigs))%nat
    ∧ length bigs' = (length bigs + length gs)%nat
    ∧ ∀ v, v ∈ kept ++ bigs → ∃ q, q ∈ kept' ++ bigs' ∧ outward v q.
Proof.
  revert kept bigs. induction gs as [|grp gs IH]; intros kept bigs Hnd Hne Hin.
  - exists kept, bigs. simpl. split; [done|]. split; [done|].
    split; [done|]. split; [done|]. split; [lia|].
    intros v Hv. exists v. split; [done|apply outward_refl].
  - simpl in Hnd. apply NoDup_app in Hnd as (Hnd1 & Hdisj & Hnd2).
    apply Forall_cons in Hne as [Hne1 Hne2].
    destruct (replace_group_shape cfg kept bigs grp)
      as (kept1 & big & Hrep & Hperm & Hsub & Hfil & Hcov); try done.
    { intros v Hv. apply Hin. simpl. apply elem_of_app. by left. }
    { intros v Hv. apply Hin. simpl. apply elem_of_app. by left. }
    destruct (IH kept1 (bigs ++ [big]) Hnd2 Hne2)
      as (kept' & bigs' & Hfold & Hsub' & Hfil' & Hlen & Hbigs & Hcov').
    { intros v Hv. destruct (Hin v) as [Hk Hs];
        [simpl; apply elem_of_app; by right|].
      split; [|done]. rewrite Hperm in Hk.
      apply elem_of_app in Hk as [Hk|Hk]; [|done].
      exfalso. by apply (Hdisj v). }
    exists kept', bigs'. simpl. rewrite Hrep. simpl.
    split; [done|]. split; [by etrans|]. split; [congruence|].
    split; [|split].
    + rewrite !length_app in *. simpl in *.
      assert (length kept = (length grp + length kept1)%nat)
        by (by rewrite Hperm, length_app).
      destruct grp; [done|]. simpl in *. lia.
    + rewrite Hbigs, length_app. simpl. lia.
    + intros v Hv.
      assert (Hv' : ∃ u, u ∈ kept1 ++ bigs ++ [big] ∧ outward v u).
      { apply elem_of_app in Hv as [Hv|Hv].
        - rewrite Hperm in Hv. apply elem_of_app in Hv as [Hv|Hv].
          + exists big. split; [|by apply Hcov].
            rewrite !elem_of_app, list_elem_of_singleton. auto.
          + exists v. split; [|apply outward_refl].
            apply elem_of_app. by left.
        - exists v. split; [|apply outward_refl].
          rewrite !elem_of_app. auto. }
      destruct Hv' as (u & Hu & Hvu).
      destruct (Hcov' u Hu) as (q & Hq & Huq).
      exists q. split; [done|]. by eapply outward_trans.
Qed.

Lemma group_small_panels_shape (cfg : PageCfg) (panels : list Panel) :
  ∃ kept bigs,
    group_small_panels cfg panels = Some (kept ++ bigs)
    ∧ sublist kept panels
    ∧ filter (λ p, ¬ is_small cfg p) kept
      = filter (λ p, ¬ is_small cfg p) panels
    ∧ (length (kept ++ bigs) ≤ length panels)%nat
    ∧ ∀ v, v ∈ panels → ∃ q, q ∈ kept ++ bigs ∧ outward v q.
Proof.
  unfold group_small_panels.
  set (small := filter (λ p, is_small cfg p) panels).
  set (groups := (group_loop cfg small ([], 0%nat)).1).
  destruct (group_loop_keys cfg small small ([], 0%nat)) as [Hnd Hkeys];
    [done|constructor|by intros k ?%elem_of_nil|].
  fold groups in Hnd, Hkeys.
  destruct (grouped_of_members groups) as [Hperm Hne].
  destruct (replace_groups_shape cfg (grouped_of groups).*2 panels [])
    as (kept & bigs & Hfold & Hsub & Hfil & Hlen & _ & Hcov).
  - by rewrite Hperm.
  - done.
  - intros v Hv. rewrite Hperm in Hv. apply Hkeys in Hv.
    apply list_elem_of_filter in Hv as [? ?]. done.
  - rewrite app_nil_r in *. exists kept, bigs. done.
Qed.

(** X11: [group_small_panels] never raises and never leaves more panels
    than it was given. *)
Theorem group_small_panels_total (cfg : PageCfg) (panels : list Panel) :
  ∃ out, group_small_panels cfg panels = Some out
         ∧ (length out ≤ length panels)%nat.
Proof.
  destruct (group_small_panels_shape cfg panels)
    as (kept & bigs & H & _ & _ & Hlen & _).
  by exists (kept ++ bigs).
Qed.

(** X12: [group_small_panels] returns panels of its input, in their
    order, followed by the panels it built; the panels of the input that
    are not small are all among the former, in their order. *)
Theorem group_small_panels_keeps_large (cfg : PageCfg) (panels : list Panel) :
  ∃ kept bigs,
    group_small_panels cfg panels = Some (kept ++ bigs)
    ∧ sublist kept panels
    ∧ filter (λ p, ¬ is_small cfg p) kept
      = filter (λ p, ¬ is_small cfg p) panels.
Proof.
  destruct (group_small_panels_shape cfg panels)
    as (kept & bigs & H & Hsub & Hfil & _).
  by exists kept, bigs.
Qed.

(** X13: [group_small_panels] loses no panel area: every panel of the
    input lies within a panel of the output (itself, or the bounding box
    of its group). *)
Theorem group_small_panels_covers (cfg : PageCfg) (panels : list Panel) :
  ∃ out, group_small_panels cfg panels = Some out
         ∧ ∀ v, v ∈ panels →
             ∃ q, q ∈ out ∧ px q <= px v ∧ py q <= py v
                  ∧ pr v <= pr q ∧ pb v <= pb q.
Proof.
  destruct (group_small_panels_shape cfg panels)
    as (kept & bigs & H & _ & _ & _ & Hcov).
  exists (kept ++ bigs). split; [done|]. intros v Hv.
  destruct (Hcov v Hv) as (q & Hq & Ho). by exists q.
Qed.

Lemma group_loop_no_close (cfg : PageCfg) (small : list Panel)
    (st : list (Panel * nat) * nat) :
  (∀ p q, p ∈ small → q ∈ small → p ≠ q → is_close cfg p q = false) →
  group_loop cfg small st = st.
Proof.
  revert st. induction small as [|p1 rest IH]; intros st Hfar; simpl; [done|].
  assert (Hinner : ∀ l, (∀ q, q ∈ l → q ∈ rest) →
            foldl (λ s p2, group_pair cfg s p1 p2) st l = st).
  { induction l as [|p2 l IHl]; intros Hl; simpl; [done|].
    assert (E : group_pair cfg st p1 p2 = st).
    { unfold group_pair. destruct st as [groups gid].
      case_decide as Hne; [done|].
      rewrite (Hfar p1 p2); [done|by left| |done].
      right. apply Hl. by left. }
    rewrite E. apply IHl. intros q ?. apply Hl. by right. }
  rewrite Hinner by done. apply IH.
  intros p q ? ? ?. apply Hfar; by (right || done).
Qed.

(** X14: when no two different small panels are close to each other,
    [group_small_panels] returns the list it was given. *)
Theorem group_small_panels_no_close (cfg : PageCfg) (panels : list Panel) :
  (∀ p q, p ∈ panels → q ∈ panels → is_small cfg p → is_small cfg q →
          p ≠ q → is_close cfg p q = false) →
  group_small_panels cfg panels = Some panels.
Proof.
  intros Hfar. unfold group_small_panels.
  rewrite group_loop_no_close; [done|].
  intros p q [? ?]%list_elem_of_filter [? ?]%list_elem_of_filter ?.
  by apply Hfar.
Qed.

Lemma group_small_panels_no_close_witness :
  group_small_panels row_cfg [row_a; row_e; mkPanel 0 500 1000 900]
  = Some [row_a; row_e; mkPanel 0 500 1000 900].
Proof.
  apply group_small_panels_no_close.
  intros p q Hp Hq Sp Sq Hne.
  rewrite !elem_of_cons, elem_of_nil in Hp, Hq.
  destruct Hp as [->|[->|[->|[]]]]; destruct Hq as [->|[->|[->|[]]]];
    first [done | reflexivity | by vm_compute in Sp | by vm_compute in Sq].
Defined.

(** ** The constructor as a whole *)

Section ConstructorProps.
Context `{NS : NeighbourSearch}.
Variable split_panels : list Segment → list Panel → list Panel.
Variable sort_panels : list Panel → list Panel.

(** X15: a page that the constructor returns was given a readable image
    and the numbering "ltr" or "rtl" in so many words, had no license file
    or one that is JSON, had lines found by the detector, and has at least
    one panel. *)
Theorem page_init_Finished (fuel : nat) (img_ok : bool) (W H : Z)
    (numbering : option string) (min_panel_size_ratio : option Q)
    (license_file : LicenseFile) (dlines : option (list DLine))
    (initial out : list Panel) :
  page_init split_panels sort_panels fuel img_ok W H numbering
    min_panel_size_ratio license_file dlines initial = Finished out →
  img_ok = true
  ∧ (numbering = Some "ltr"%string ∨ numbering = Some "rtl"%string)
  ∧ license_file ≠ LicenseNotJson
  ∧ dlines ≠ None
  ∧ out ≠ [].
Proof.
  unfold page_init.
  destruct (init_numbering img_ok numbering) as [e|s] eqn:E; [done|].
  destruct license_file as [|json|]; simpl; [| |done];
    (destruct dlines as [lines|]; simpl; [|done]).
  all: intros Hrun.
  all: assert (Hargs : img_ok = true
                  ∧ (numbering = Some "ltr"%string
                     ∨ numbering = Some "rtl"%string))
    by (unfold init_numbering in E; destruct img_ok; [|done];
        split; [done|]; simpl in E; destruct numbering as [t|]; [|done];
        simpl in E;
        destruct (String.eqb_spec t "ltr") as [->|?]; [by left|];
        destruct (String.eqb_spec t "rtl") as [->|?]; [by right|done]).
  all: destruct Hargs as [? ?]; do 4 (split; [done|]).
  all: unfold run_pipeline in Hrun.
  all: destruct (group_small_panels _ initial); [|done].
  all: destruct (merge_panels _); [|done].
  all: unfold finish_page, fallback_full_page in Hrun.
  all: apply fix_panels_numbering_Finished in Hrun as [Hperm _].
  all: intros ->; apply Permutation_length in Hperm; simpl in Hperm.
  all: case_decide as Hlen; [rewrite length_app in Hperm; simpl in Hperm|]; lia.
Qed.
End ConstructorProps.

Lemma page_init_Finished_witness :
  true = true
  ∧ (Some "ltr"%string = Some "ltr"%string
     ∨ Some "ltr"%string = Some "rtl"%string)
  ∧ NoLicenseFile ≠ LicenseNotJson
  ∧ Some [mkDLine 20 20 380 20] ≠ None
  ∧ grid_2x2 ≠ [].
Proof.
  apply (@page_init_Finished spec_find_neighbour (λ _ l, l) (λ l, l) 5 true
           800 1200 (Some "ltr"%string) None NoLicenseFile
           (Some [mkDLine 20 20 380 20]) grid_2x2 grid_2x2).
  vm_compute. reflexivity.
Defined.

(** ** Lists that are already in reading order *)

Section OrderedProps.
Context `{NS : NeighbourSearch}.

Lemma py_index_first (n : Panel) (l : list Panel) (pos : nat) :
  l !! pos = Some n → ∃ pos0, py_index n l = Some pos0 ∧ (pos0 ≤ pos)%nat.
Proof.
  intros Hpos. unfold py_index.
  destruct (list_find (λ q, q = n) l) as [[i q]|] eqn:E.
  - exists i. split; [done|].
    apply list_find_Some in E as (_ & _ & Hfirst).
    destruct (decide (i ≤ pos)%nat); [done|].
    exfalso. apply (Hfirst pos n Hpos); [lia|done].
  - exfalso. apply list_find_None in E. rewrite Forall_forall in E.
    apply (E n); [by eapply list_elem_of_lookup_2|done].
Qed.

Lemma try_neighbours_ordered (l : list Panel) (i : nat) (p : Panel)
    (nbs : list (option Panel)) :
  (∀ n, Some n ∈ nbs → ∃ pos, (pos ≤ i)%nat ∧ l !! pos = Some n) →
  try_neighbours l i p nbs = NoChange.
Proof.
  induction nbs as [|[n|] nbs IH]; intros Hord; simpl; [done| |].
  - destruct (Hord n) as (pos & Hle & Hpos); [by left|].
    destruct (py_index_first n l pos Hpos) as (pos0 & -> & Hle0).
    destruct (Nat.ltb_spec i pos0); [lia|].
    apply IH. intros m Hm. apply Hord. by right.
  - apply IH. intros m Hm. apply Hord. by right.
Qed.

(** X17: a list in which every before-neighbour of a panel stands at the
    position of the panel or before it is returned as it is, after one
    sweep. *)
Theorem fix_panels_numbering_keeps_ordered (fuel : nat) (cfg : PageCfg)
    (panels : list Panel) :
  (∀ i p n, panels !! i = Some p →
            Some n ∈ neighbours_before cfg panels p →
            ∃ pos, (pos ≤ i)%nat ∧ panels !! pos = Some n) →
  fix_panels_numbering (S fuel) cfg panels = Finished panels.
Proof.
  intros Hord. simpl.
  assert (Hsw : ∀ rest i, rest = drop i panels →
                  sweep_from cfg panels i rest = NoChange).
  { induction rest as [|q rest IH]; intros i Hrest; cbn [sweep_from]; [done|].
    assert (Hi : panels !! i = Some q).
    { replace (panels !! i) with (drop i panels !! 0%nat)
        by (rewrite lookup_drop; f_equal; lia).
      by rewrite <-Hrest. }
    rewrite (try_neighbours_ordered panels i q); [|by eauto].
    apply IH. replace (S i) with (i + 1)%nat by lia.
    by rewrite <-drop_drop, <-Hrest. }
  unfold sweep. by rewrite (Hsw panels 0%nat).
Qed.
End OrderedProps.

Lemma fix_panels_numbering_keeps_ordered_witness :
  @fix_panels_numbering spec_find_neighbour 1
     (mkCfg 800 1200 "ltr" (1 # 15)) grid_2x2 = Finished grid_2x2.
Proof.
  apply (@fix_panels_numbering_keeps_ordered spec_find_neighbour 0).
  intros i p n Hp Hn.
  destruct i as [|[|[|[|i]]]]; simplify_eq/=.
  all: match type of Hn with
       | Some _ ∈ ?X =>
           let v := eval vm_compute in X in change X with v in Hn
       end.
  all: rewrite !elem_of_cons, elem_of_nil in Hn.
  all: destruct Hn as [Hn|[Hn|[]]]; simplify_eq.
  all: first [ exists 0%nat; split; [lia|reflexivity]
             | exists 1%nat; split; [lia|reflexivity]
             | exists 2%nat; split; [lia|reflexivity] ].
Defined.

(** ** [merge_panels] loses no area *)

Lemma contains_trans (p q s : Panel) :
  contains p q = true → contains q s = true → contains p s = true.
Proof. rewrite !contains_spec. lia. Qed.

Lemma contains_strict_size (q v : Panel) :
  contains q v = true → q ≠ v → w v + h v < w q + h q.
Proof.
  rewrite contains_spec. unfold w, h. intros (? & ? & ? & ?) Hne.
  apply Z.nle_gt. intros Hle. apply Hne.
  destruct q, v; simpl in *. f_equal; lia.
Qed.

Lemma filter_eq_NoDup (v : Panel) (l : list Panel) :
  NoDup l → (length (filter (λ x, x = v) l) ≤ 1)%nat.
Proof.
  induction 1 as [|x l Hx _ IH]; [simpl; lia|].
  rewrite filter_cons. case_decide as E; [|exact IH]. subst. simpl.
  assert (Hnil : filter (λ x, x = v) l = []).
  { apply elem_of_nil_inv. intros y [-> ?]%list_elem_of_filter. done. }
  rewrite Hnil. simpl. lia.
Qed.

Lemma filter_eq_two (v : Panel) (l : list Panel) (i j : nat) :
  (i < j)%nat → l !! i = Some v → l !! j = Some v →
  (2 ≤ length (filter (λ x, x = v) l))%nat.
Proof.
  revert i j. induction l as [|x l IH]; intros i j Hij Hi Hj; [done|].
  rewrite filter_cons. destruct i as [|i]; simplify_eq/=.
  - rewrite decide_True by done. simpl. destruct j as [|j]; [lia|].
    simpl in Hj. assert (Hin : v ∈ filter (λ x, x = v) l).
    { apply list_elem_of_filter. split; [done|].
      by eapply list_elem_of_lookup_2. }
    destruct (filter (λ x, x = v) l); [by apply elem_of_nil in Hin|].
    simpl. lia.
  - destruct j as [|j]; [lia|]. simpl in Hj.
    specialize (IH i j ltac:(lia) Hi Hj). case_decide; simpl; lia.
Qed.

Lemma size_bound (panels : list Panel) :
  ∃ M, ∀ p, p ∈ panels → w p + h p <= M.
Proof.
  induction panels as [|q panels [M HM]].
  - exists 0. intros p Hp. by apply elem_of_nil in Hp.
  - exists (Z.max (w q + h q) M).
    intros p [->|Hp]%elem_of_cons; [lia|]. specialize (HM p Hp). lia.
Qed.

(** X18: [merge_panels] loses no panel area: every panel of the input lies
    within a panel of the output. *)
Theorem merge_panels_covers (panels : list Panel) :
  ∃ out, merge_panels panels = Some out
         ∧ ∀ v, v ∈ panels → ∃ q, q ∈ out ∧ contains q v = true.
Proof.
  unfold merge_panels. rewrite merge_loop_to_remove. simpl.
  destruct (remove_each_elem_of (remove_dups (to_remove panels)) panels)
    as (out & Hout & Hperm & Hsub).
  { apply NoDup_remove_dups. }
  { intros v Hv. rewrite elem_of_remove_dups in Hv.
    destruct (to_remove_positions panels v Hv) as (i & j & q & _ & _ & Hj & _).
    by eapply list_elem_of_lookup_2. }
  exists out. split; [done|].
  assert (HA : ∀ v, v ∈ panels → v ∉ out →
                ∃ q, q ∈ panels ∧ q ≠ v ∧ contains q v = true).
  { intros v Hv Hvo.
    assert (Hvr : v ∈ to_remove panels).
    { rewrite Hperm in Hv. apply elem_of_app in Hv as [Hv|?]; [|done].
      by rewrite elem_of_remove_dups in Hv. }
    destruct (to_remove_positions panels v Hvr)
      as (i & j & q & Hij & Hi & Hj & Hc).
    exists q. split; [by eapply list_elem_of_lookup_2|]. split; [|done].
    intros ->. 
    assert (H2 : (2 ≤ length (filter (λ x, x = v) panels))%nat).
    { destruct (decide (i < j)%nat).
      - by apply (filter_eq_two v panels i j).
      - apply (filter_eq_two v panels j i); [lia|done|done]. }
    rewrite Hperm, filter_app, length_app in H2.
    pose proof (filter_eq_NoDup v _ (NoDup_remove_dups (to_remove panels))).
    assert (Hnil : filter (λ x, x = v) out = []).
    { apply elem_of_nil_inv. intros y [-> ?]%list_elem_of_filter. done. }
    rewrite Hnil in H2. simpl in H2. lia. }
  destruct (size_bound panels) as [M HM].
  assert (HB : ∀ (n : nat) v, v ∈ panels →
                (Z.to_nat (M - (w v + h v)) ≤ n)%nat →
                ∃ q, q ∈ out ∧ contains q v = true).
  { induction n as [|n IH]; intros v Hv Hn.
    - destruct (decide (v ∈ out)) as [?|Hvo].
      { exists v. split; [done|apply contains_refl]. }
      destruct (HA v Hv Hvo) as (q & Hq & Hne & Hc).
      pose proof (contains_strict_size q v Hc Hne).
      pose proof (HM q Hq). lia.
    - destruct (decide (v ∈ out)) as [?|Hvo].
      { exists v. split; [done|apply contains_refl]. }
      destruct (HA v Hv Hvo) as (q & Hq & Hne & Hc).
      pose proof (contains_strict_size q v Hc Hne).
      pose proof (HM q Hq).
      destruct (IH q Hq) as (q' & Hq' & Hc'); [lia|].
      exists q'. split; [done|]. by eapply contains_trans. }
  intros v Hv. by apply (HB (Z.to_nat (M - (w v + h v)))).
Qed.

(** ** The relabelling sweep of [group_small_panels] *)

Lemma dict_get_elem_of (d : list (Panel * nat)) (k : Panel) (v : nat) :
  NoDup d.*1 → (k, v) ∈ d → dict_get d k = Some v.
Proof.
  induction d as [|[k' v'] d IH]; intros Hnd Hin;
    [by apply elem_of_nil in Hin|].
  cbn [fmap list_fmap fst] in Hnd. apply NoDup_cons in Hnd as [Hk' Hnd].
  simpl. apply elem_of_cons in Hin as [[= -> ->]|Hin].
  - by rewrite decide_True.
  - rewrite decide_False; [by apply IH|].
    intros ->. apply Hk'. apply list_elem_of_fmap. by exists (k, v).
Qed.

(** X19: the sweep that merges the group of [p2] into the group of [p1]
    gives the id of [p1] to [p2] and to the members of the group of [p2]
    that the dict lists before [p2]; every panel that the dict lists after
    [p2] keeps its id, the members of the group of [p2] included. *)
Theorem relabel_leaves_later_entries (p1 p2 : Panel) (g1 g2 : nat)
    (pre post : list (Panel * nat)) :
  NoDup (pre ++ (p2, g2) :: post).*1 → g1 ≠ g2 →
  dict_get (pre ++ (p2, g2) :: post) p1 = Some g1 →
  let groups' := relabel p1 p2 (pre ++ (p2, g2) :: post) in
  dict_get groups' p2 = Some g1
  ∧ (∀ q, (q, g2) ∈ pre → dict_get groups' q = Some g1)
  ∧ (∀ q g, (q, g) ∈ post → dict_get groups' q = Some g).
Proof.
  intros Hnd Hg H1 groups'. unfold groups'.
  rewrite (relabel_stops_at_p2 p1 p2 g1 g2 pre post Hnd Hg H1).
  set (f := prod_map id (λ id0 : nat, if decide (id0 = g2) then g1 else id0)).
  assert (Hkeys : (f <$> pre).*1 = pre.*1).
  { rewrite <-list_fmap_compose. apply list_fmap_ext. by intros ? [? ?]. }
  assert (Hnd' : NoDup ((f <$> pre) ++ (p2, g1) :: post).*1).
  { rewrite fmap_app, fmap_cons, Hkeys. simpl.
    by rewrite fmap_app, fmap_cons in Hnd. }
  split; [|split].
  - apply dict_get_elem_of; [done|]. apply elem_of_app. right. by left.
  - intros q Hq. apply dict_get_elem_of; [done|]. apply elem_of_app. left.
    apply list_elem_of_fmap. exists (q, g2). split; [|done].
    unfold f, prod_map. simpl. by rewrite decide_True.
  - intros q g Hq. apply dict_get_elem_of; [done|]. apply elem_of_app.
    right. by right.
Qed.

Lemma relabel_leaves_later_entries_witness :
  let groups' :=
    relabel row_c row_d
      ([(row_a, 1%nat); (row_c, 1%nat); (row_b, 2%nat)]
       ++ (row_d, 2%nat) :: [(row_e, 2%nat)]) in
  dict_get groups' row_d = Some 1%nat
  ∧ (∀ q, (q, 2%nat) ∈ [(row_a, 1%nat); (row_c, 1%nat); (row_b, 2%nat)] →
          dict_get groups' q = Some 1%nat)
  ∧ (∀ q g, (q, g) ∈ [(row_e, 2%nat)] → dict_get groups' q = Some g).
Proof.
  apply (relabel_leaves_later_entries row_c row_d 1 2
           [(row_a, 1%nat); (row_c, 1%nat); (row_b, 2%nat)]
           [(row_e, 2%nat)]).
  - by compute_done.
  - lia.
  - reflexivity.
Defined.
